(** * nanobot: the guarded shell-execution tool

    A shallow embedding of [nanobot/agent/tools/shell.py] (class [ExecTool]
    and [_detect_shell]) and the properties of its safety guard, timeout
    handling, output rendering and history recording.

    Layout:
    - [PyStr]  : Python [str] values as lists of code points, with the
                 string operations the tool uses ([strip], [in], [join],
                 slicing, decimal formatting);
    - [PyPath] : resolved [pathlib] paths ([parents], equality);
    - [Eff]    : effects: an event trace plus a value or a raised
                 exception, with [try]/[except];
    - [Shell]  : the tool itself, function by function, over a [World] of
                 library and operating-system calls;
    - [Raising]: [_guard_command] and [execute] once more, with the two
                 library calls made before the [try] ([os.getcwd()],
                 [re.search]) raising;
    - [Re]     : a reference matcher for the fragment of Python's regular
                 expressions used by the built-in deny patterns;
    - [Demo]   : a concrete host (matcher, path resolver, programs) on
                 which the tool is evaluated;
    - the vocabulary of the statements, the lemmas on strings, paths, the
      guard and [execute], and the theorems, grouped by subject. *)

From Stdlib Require Import List ZArith NArith Bool Ascii String Lia DecimalString.
Import ListNotations.

(* ===================================================================== *)
(** * Python strings *)
(* ===================================================================== *)

Module PyStr.

(** A Python [str] is a sequence of Unicode code points; [len] counts code
    points. *)
Definition str := list N.

(** String literals of the source are ASCII; [lit] embeds them. *)
Definition lit (s : string) : str := map N_of_ascii (list_ascii_of_string s).

Definition len (s : str) : Z := Z.of_nat (List.length s).

(** Truthiness: a string is falsy exactly when it is empty. *)
Definition truthy (s : str) : bool :=
  match s with [] => false | _ :: _ => true end.

Fixpoint eqb (a b : str) : bool :=
  match a, b with
  | [], [] => true
  | x :: a', y :: b' => N.eqb x y && eqb a' b'
  | _, _ => false
  end.

(** [str.isspace] on one code point, which is also what [\s] matches in a
    [str] pattern: the code points CPython's [Py_UNICODE_ISSPACE]
    accepts. *)
Definition isspace (c : N) : bool :=
  ((9 <=? c) && (c <=? 13) || (28 <=? c) && (c <=? 32)
   || (c =? 133) || (c =? 160) || (c =? 5760)
   || (8192 <=? c) && (c <=? 8202)
   || (c =? 8232) || (c =? 8233) || (c =? 8239) || (c =? 8287)
   || (c =? 12288))%N.

Fixpoint dropwhile (f : N -> bool) (s : str) : str :=
  match s with
  | [] => []
  | c :: s' => if f c then dropwhile f s' else s
  end.

Fixpoint takewhile (f : N -> bool) (s : str) : str :=
  match s with
  | [] => []
  | c :: s' => if f c then c :: takewhile f s' else []
  end.

Definition lstrip (s : str) : str := dropwhile isspace s.
Definition rstrip (s : str) : str := rev (dropwhile isspace (rev s)).

(** [s.strip()] *)
Definition strip (s : str) : str := rstrip (lstrip s).

Fixpoint startswith (p s : str) : bool :=
  match p, s with
  | [], _ => true
  | x :: p', y :: s' => N.eqb x y && startswith p' s'
  | _ :: _, [] => false
  end.

(** [needle in hay] *)
Fixpoint contains (needle hay : str) : bool :=
  startswith needle hay ||
  match hay with
  | [] => false
  | _ :: hay' => contains needle hay'
  end.

(** [sep.join(parts)] *)
Fixpoint join (sep : str) (parts : list str) : str :=
  match parts with
  | [] => []
  | [p] => p
  | p :: rest => p ++ sep ++ join sep rest
  end.

(** [s[:n]] for a non-negative [n]. *)
Definition slice_to (n : Z) (s : str) : str := firstn (Z.to_nat n) s.

(** [s.replace(old, new)] for a one-character [old]. *)
Definition replace1 (old : N) (new : str) (s : str) : str :=
  flat_map (fun c => if N.eqb c old then new else [c]) s.

(** [str(n)] / [f"{n}"] for an [int]. *)
Definition of_Z (z : Z) : str := lit (NilZero.string_of_int (Z.to_int z)).

(** Declarative counterparts, used in statements. *)
Definition prefix (p s : str) : Prop := exists t, s = p ++ t.
Definition suffix (p s : str) : Prop := exists t, s = t ++ p.
Definition infix (p s : str) : Prop := exists a b, s = a ++ p ++ b.

End PyStr.

Import PyStr.

(* ===================================================================== *)
(** * Resolved paths *)
(* ===================================================================== *)

Module PyPath.

(** A [pathlib] path: its anchor (drive and root; ["/"] for an absolute
    POSIX path, empty for a relative one) and its remaining components. *)
Record Path := mkPath { anchor : str; names : list str }.

Fixpoint names_eqb (a b : list str) : bool :=
  match a, b with
  | [], [] => true
  | x :: a', y :: b' => PyStr.eqb x y && names_eqb a' b'
  | _, _ => false
  end.

(** [p == q] *)
Definition path_eqb (p q : Path) : bool :=
  PyStr.eqb (anchor p) (anchor q) && names_eqb (names p) (names q).

(** [p.is_absolute()] *)
Definition is_absolute (p : Path) : bool := truthy (anchor p).

(** All proper prefixes of a component list, shortest first. *)
Fixpoint proper_prefixes (l : list str) : list (list str) :=
  match l with
  | [] => []
  | x :: l' => [] :: map (cons x) (proper_prefixes l')
  end.

(** [p.parents]: the logical ancestors, nearest first. *)
Definition parents (p : Path) : list Path :=
  rev (map (mkPath (anchor p)) (proper_prefixes (names p))).

(** [q in ps] *)
Definition path_in (q : Path) (ps : list Path) : bool :=
  existsb (path_eqb q) ps.

(** Declarative: [p] lies strictly below [c]. *)
Definition descendant (c p : Path) : Prop :=
  anchor p = anchor c /\
  exists x rest, names p = names c ++ x :: rest.

End PyPath.

Import PyPath.

(* ===================================================================== *)
(** * Effects: traces and exceptions *)
(* ===================================================================== *)

Module Eff.

(** The exceptions the tool distinguishes: [asyncio.TimeoutError], and any
    other [Exception] with its [str(e)]. Task cancellation, which is not an
    [Exception], is outside the model. *)
Inductive exn :=
| TimeoutError
| Exception (msg : str).

(** [str(e)]; a [TimeoutError] raised by [wait_for] has an empty message. *)
Definition exn_str (e : exn) : str :=
  match e with
  | TimeoutError => []
  | Exception msg => msg
  end.

Inductive exc (A : Type) :=
| Val (a : A)
| Exn (e : exn).
Arguments Val {A} a.
Arguments Exn {A} e.

Inductive site := MainCommand | HistoryAppend.
Inductive stdio := PIPE | DEVNULL.

Definition environment := list (str * str).

(** What the tool does to the outside world, in program order. [Rendered]
    is a label: it marks the point where [execute] has computed its final
    result string (after truncation). *)
Inductive Event :=
| Spawn (s : site) (program : str) (args : list str)
        (cwd : option str) (env : option environment) (out err : stdio)
| Communicate (timeout : Z)
| Kill
| Wait (timeout : Z)
| Rendered (result : str).

(** A computation: the events it performed, and its value or the exception
    it raised. *)
Definition M (A : Type) : Type := (list Event * exc A)%type.

Definition ret {A} (a : A) : M A := ([], Val a).
Definition lift {A} (x : exc A) : M A := ([], x).
Definition emit (e : Event) : M unit := ([e], Val tt).

Definition bind {A B} (m : M A) (k : A -> M B) : M B :=
  match m with
  | (t, Val a) => let (t', r) := k a in (t ++ t', r)
  | (t, Exn e) => (t, Exn e)
  end.

(** [try: m except <class> as e: h e] *)
Definition try_except {A} (m : M A) (catches : exn -> bool) (h : exn -> M A)
  : M A :=
  match m with
  | (t, Exn e) =>
      if catches e then let (t', r) := h e in (t ++ t', r) else (t, Exn e)
  | (t, Val a) => (t, Val a)
  end.

(** [except Exception] catches both; [except asyncio.TimeoutError] only the
    first. *)
Definition any_Exception (e : exn) : bool := true.
Definition is_TimeoutError (e : exn) : bool :=
  match e with TimeoutError => true | Exception _ => false end.

Definition trace {A} (m : M A) : list Event := fst m.
Definition outcome {A} (m : M A) : exc A := snd m.

End Eff.

Import Eff.

Notation "x <- m ;; k" := (bind m (fun x => k))
  (at level 61, m at next level, right associativity).
Notation "m ;;; k" := (bind m (fun _ => k))
  (at level 61, right associativity).

(* ===================================================================== *)
(** * The tool: [nanobot/agent/tools/shell.py] *)
(* ===================================================================== *)

Module Shell.

Definition bytes := list Byte.byte.

(** A subprocess handle as the tool uses it.
    - [communicate t] is [await asyncio.wait_for(process.communicate(),
      timeout=t)]: the captured streams, [TimeoutError], or another
      exception;
    - [returncode] is [process.returncode] once [communicate] has
      returned;
    - [wait t] is [await asyncio.wait_for(process.wait(), timeout=t)] after
      [process.kill()]: the process exits within [t] seconds or the wait
      times out;
    - [kill] is [process.kill()]: it sends the signal and returns, or
      raises ([ProcessLookupError], whose [str] is empty, when the child
      has exited in the meantime). *)
Inductive grace := Exited (code : Z) | GraceTimedOut.

Record Process := {
  communicate : Z -> exc (bytes * bytes);
  returncode : Z;
  kill : exc unit;
  wait : Z -> grace
}.

(** The host the tool runs on: the library and operating-system calls it
    makes, as functions of their arguments. [resolve],
    [create_subprocess_exec] and the calls on a process may raise;
    [str.lower] and decoding with replacement return a value. [getcwd] and
    [re_search] give the values of [os.getcwd()] and [re.search] on a host
    that has a current directory and for patterns that are regular
    expressions; module [Raising] below runs the same code where these two
    calls raise. *)
Record World := {
  (** [shutil.which] *)
  which : str -> option str;
  (** [os.getcwd()] *)
  getcwd : str;
  (** [os.environ] and [os.pathsep] *)
  environ : environment;
  pathsep : str;
  (** whether [re.search(pattern, text)] finds a match; the configured
      patterns are regular expressions (spec, section 3) *)
  re_search : str -> str -> bool;
  (** [str.lower] *)
  str_lower : str -> str;
  (** [Path(s).resolve()], which may raise *)
  resolve : str -> exc Path;
  (** [b.decode("utf-8", errors="replace")], which never raises *)
  decode : bytes -> str;
  (** [asyncio.create_subprocess_exec] *)
  create_subprocess_exec :
    str -> list str -> option str -> option environment -> exc Process
}.

(** ** [_detect_shell] *)

Fixpoint first_which (w : World) (shells : list str) : str :=
  match shells with
  | [] => lit "/bin/sh"
  | shell :: rest =>
      match which w shell with
      | Some shell_path =>
          if truthy shell_path then shell_path else first_which w rest
      | None => first_which w rest
      end
  end.

Definition _detect_shell (w : World) : str :=
  first_which w [lit "fish"; lit "bash"; lit "zsh"; lit "sh"].

(** ** [ExecTool.__init__] *)

Record ExecTool := {
  timeout : Z;
  working_dir : option str;
  deny_patterns : list str;
  allow_patterns : list str;
  restrict_to_workspace : bool;
  path_append : str;
  shell : str
}.

Definition default_deny_patterns : list str :=
  [ lit "\brm\s+-[rf]{1,2}\b";
    lit "\bdel\s+/[fq]\b";
    lit "\brmdir\s+/s\b";
    lit "(?:^|[;&|]\s*)format\b";
    lit "\b(mkfs|diskpart)\b";
    lit "\bdd\s+if=";
    lit ">\s*/dev/sd";
    lit "\b(shutdown|reboot|poweroff)\b";
    lit ":\(\)\s*\{.*\};\s*:" ].

(** [xs or default] on an optional list: [None] and the empty list are both
    falsy. *)
Definition list_or {A} (xs : option (list A)) (default : list A) : list A :=
  match xs with
  | Some (x :: l) => x :: l
  | Some [] | None => default
  end.

(** [s or default] on an optional string. *)
Definition str_or (s : option str) (default : str) : str :=
  match s with
  | Some (c :: s') => c :: s'
  | Some [] | None => default
  end.

Definition __init__ (w : World) (timeout : Z) (working_dir : option str)
    (deny_patterns allow_patterns : option (list str))
    (restrict_to_workspace : bool) (path_append : str) : ExecTool :=
  {| timeout := timeout;
     working_dir := working_dir;
     deny_patterns := list_or deny_patterns default_deny_patterns;
     allow_patterns := list_or allow_patterns [];
     restrict_to_workspace := restrict_to_workspace;
     path_append := path_append;
     shell := _detect_shell w |}.

(** The constructor's defaults: [ExecTool()]. *)
Definition default_tool (w : World) : ExecTool :=
  __init__ w 60 None None None false [].

(** ** [ExecTool._extract_absolute_paths] *)

Definition is_ascii_letter (c : N) : bool :=
  ((65 <=? c) && (c <=? 90) || (97 <=? c) && (c <=? 122))%N.

(** The negated class of the Windows pattern: anything but whitespace, a
    double or single quote, a pipe, a redirect ([>] or [<]) or a
    semicolon. *)
Definition win_body (c : N) : bool :=
  negb (isspace c || (c =? 34) || (c =? 39) || (c =? 124) || (c =? 62)
        || (c =? 60) || (c =? 59))%N.

(** The negated class of the POSIX pattern: anything but whitespace, a
    double or single quote, or [>]. *)
Definition posix_body (c : N) : bool :=
  negb (isspace c || (c =? 34) || (c =? 39) || (c =? 62))%N.

(** The class [[\s|>]]. *)
Definition posix_lead (c : N) : bool :=
  (isspace c || (c =? 124) || (c =? 62))%N.

(** A match of the Windows pattern (an ASCII letter, a colon, a
    backslash, then one or more [win_body] characters, greedily) at the
    head of [s]. *)
Definition match_win (s : str) : option str :=
  match s with
  | l :: c :: b :: t =>
      if (is_ascii_letter l && (c =? 58) && (b =? 92))%N then
        match takewhile win_body t with
        | [] => None
        | body => Some (l :: c :: b :: body)
        end
      else None
  | _ => None
  end.

(** [re.findall] for the Windows pattern: leftmost matches, none
    overlapping; [skip] counts the characters of the last match still to
    pass over. *)
Fixpoint findall_win (skip : nat) (s : str) : list str :=
  match s with
  | [] => []
  | _ :: s' =>
      match skip with
      | S k => findall_win k s'
      | O =>
          match match_win s with
          | Some m => m :: findall_win (List.length m - 1) s'
          | None => findall_win 0 s'
          end
      end
  end.

(** A match of the group of the POSIX pattern (a slash, then one or more
    [posix_body] characters, greedily) at the head of [s]. *)
Definition match_path (s : str) : option str :=
  match s with
  | c :: t =>
      if (c =? 47)%N then
        match takewhile posix_body t with
        | [] => None
        | body => Some (c :: body)
        end
      else None
  | [] => None
  end.

(** A match of the POSIX pattern at the head of [s]: either [^] (only
    where [s] is the whole string, [at_start]) or one [posix_lead]
    character, then the group. Returns the length of the whole match and
    the text of group 1. *)
Definition match_posix (at_start : bool) (s : str) : option (nat * str) :=
  match (if at_start then match_path s else None) with
  | Some g => Some (List.length g, g)
  | None =>
      match s with
      | c :: t =>
          if posix_lead c then
            match match_path t with
            | Some g => Some (S (List.length g), g)
            | None => None
            end
          else None
      | [] => None
      end
  end.

(** [re.findall] for the POSIX pattern; it returns group 1 of each
    match. *)
Fixpoint findall_posix (at_start : bool) (skip : nat) (s : str) : list str :=
  match s with
  | [] => []
  | _ :: s' =>
      match skip with
      | S k => findall_posix false k s'
      | O =>
          match match_posix at_start s with
          | Some (n, g) => g :: findall_posix false (n - 1) s'
          | None => findall_posix false 0 s'
          end
      end
  end.

Definition _extract_absolute_paths (command : str) : list str :=
  let win_paths := findall_win 0 command in
  let posix_paths := findall_posix true 0 command in
  win_paths ++ posix_paths.

(** ** [ExecTool._guard_command] *)

Definition msg_dangerous : str :=
  lit "Error: Command blocked by safety guard (dangerous pattern detected)".
Definition msg_not_allowlisted : str :=
  lit "Error: Command blocked by safety guard (not in allowlist)".
Definition msg_traversal : str :=
  lit "Error: Command blocked by safety guard (path traversal detected)".
Definition msg_outside : str :=
  lit "Error: Command blocked by safety guard (path outside working dir)".

(** The loop over [self.deny_patterns]: the first pattern found in [lower]
    returns. *)
Fixpoint deny_loop (w : World) (lower : str) (patterns : list str)
  : option str :=
  match patterns with
  | [] => None
  | pattern :: rest =>
      if re_search w pattern lower then Some msg_dangerous
      else deny_loop w lower rest
  end.

(** The loop over the extracted paths: a path that fails to resolve is
    skipped; the first one outside [cwd_path] returns. *)
Fixpoint path_loop (w : World) (cwd_path : Path) (raws : list str)
  : option str :=
  match raws with
  | [] => None
  | raw :: rest =>
      match resolve w (strip raw) with
      | Exn _ => path_loop w cwd_path rest
      | Val p =>
          if is_absolute p && negb (path_in cwd_path (parents p))
             && negb (path_eqb p cwd_path)
          then Some msg_outside
          else path_loop w cwd_path rest
      end
  end.

(** Lines 157-171: the workspace stage of the guard, on the trimmed
    command. *)
Definition confine (w : World) (self : ExecTool) (cmd cwd : str)
  : exc (option str) :=
  if restrict_to_workspace self then
    if contains (lit "..\") cmd || contains (lit "../") cmd
    then Val (Some msg_traversal)
    else
      match resolve w cwd with
      | Exn e => Exn e
      | Val cwd_path =>
          Val (path_loop w cwd_path (_extract_absolute_paths cmd))
      end
  else Val None.

Definition _guard_command (w : World) (self : ExecTool) (command cwd : str)
  : exc (option str) :=
  let cmd := strip command in
  let lower := str_lower w cmd in
  match deny_loop w lower (deny_patterns self) with
  | Some blocked => Val (Some blocked)
  | None =>
      if match allow_patterns self with [] => false | _ :: _ => true end
         && negb (existsb (fun p => re_search w p lower) (allow_patterns self))
      then Val (Some msg_not_allowlisted)
      else confine w self cmd cwd
  end.

(** ** [ExecTool._add_to_history] *)

Definition spawn (s : site) (w : World) (program : str) (args : list str)
    (cwd : option str) (env : option environment) (out err : stdio)
  : M Process :=
  emit (Spawn s program args cwd env out err) ;;;
  lift (create_subprocess_exec w program args cwd env).

Definition _add_to_history (w : World) (self : ExecTool) (command : str)
  : M unit :=
  if negb (contains (lit "fish") (shell self)) then ret tt
  else
    try_except
      (let escaped_cmd :=
         replace1 39 (lit "'" ++ [34%N] ++ lit "'" ++ [34%N] ++ lit "'")
                  command in
       _ <- spawn HistoryAppend w (shell self)
              [lit "-c"; lit "history append '" ++ escaped_cmd ++ lit "'"]
              None None DEVNULL DEVNULL ;;
       ret tt)
      any_Exception
      (fun _ => ret tt).

(** ** [ExecTool.execute] *)

Fixpoint env_get (env : environment) (key default : str) : str :=
  match env with
  | [] => default
  | (k, v) :: env' => if PyStr.eqb k key then v else env_get env' key default
  end.

Fixpoint env_set (env : environment) (key value : str) : environment :=
  match env with
  | [] => [(key, value)]
  | (k, v) :: env' =>
      if PyStr.eqb k key then (k, value) :: env'
      else (k, v) :: env_set env' key value
  end.

Definition max_len : Z := 10000.

(** Lines 116-127: the parts of the output, in order. *)
Definition output_parts (w : World) (stdout stderr : bytes) (code : Z)
  : list str :=
  let output_parts := [] in
  let output_parts :=
    match stdout with
    | [] => output_parts
    | _ :: _ => output_parts ++ [decode w stdout]
    end in
  let output_parts :=
    match stderr with
    | [] => output_parts
    | _ :: _ =>
        let stderr_text := decode w stderr in
        if truthy (strip stderr_text)
        then output_parts ++ [lit "STDERR:" ++ [10%N] ++ stderr_text]
        else output_parts
    end in
  let output_parts :=
    if negb (code =? 0)%Z
    then output_parts ++ [[10%N] ++ lit "Exit code: " ++ of_Z code]
    else output_parts in
  output_parts.

(** Line 129. *)
Definition joined (parts : list str) : str :=
  match parts with
  | [] => lit "(no output)"
  | _ :: _ => join [10%N] parts
  end.

(** Lines 132-134. *)
Definition truncated (result : str) : str :=
  if (len result >? max_len)%Z
  then slice_to max_len result
       ++ [10%N] ++ lit "... (truncated, "
       ++ of_Z (len result - max_len) ++ lit " more chars)"
  else result.

Definition msg_timeout (self : ExecTool) : str :=
  lit "Error: Command timed out after " ++ of_Z (timeout self)
  ++ lit " seconds".

Definition msg_exception (e : exn) : str :=
  lit "Error executing command: " ++ exn_str e.

Definition effective_cwd (w : World) (self : ExecTool)
    (working_dir' : option str) : str :=
  str_or working_dir' (str_or (working_dir self) (getcwd w)).

(** Lines 86-88: the environment of the child process. *)
Definition child_env (w : World) (self : ExecTool) : environment :=
  let env := environ w in
  if truthy (path_append self)
  then env_set env (lit "PATH")
         (env_get env (lit "PATH") [] ++ pathsep w ++ path_append self)
  else env.

(** Lines 86-142: what [execute] does once the guard has let the command
    through. An exception raised by [process.kill()] leaves the timeout
    handler and reaches the outer [except]. *)
Definition run_command (w : World) (self : ExecTool) (command cwd : str)
  : M str :=
  let env := child_env w self in
  try_except
    (process <- spawn MainCommand w (shell self) [lit "-c"; command]
                  (Some cwd) (Some env) PIPE PIPE ;;
     streams <-
       try_except
         (emit (Communicate (timeout self)) ;;;
          r <- lift (communicate process (timeout self)) ;;
          ret (inr r))
         is_TimeoutError
         (fun _ =>
            emit Kill ;;;
            lift (kill process) ;;;
            emit (Wait 5) ;;;
            match wait process 5 with
            | Exited _ => ret (inl (msg_timeout self))
            | GraceTimedOut => ret (inl (msg_timeout self))
            end) ;;
     match streams with
     | inl early => ret early
     | inr (stdout, stderr) =>
         let result :=
           truncated
             (joined (output_parts w stdout stderr (returncode process)))
         in
         emit (Rendered result) ;;;
         _add_to_history w self command ;;;
         ret result
     end)
    any_Exception
    (fun e => ret (msg_exception e)).

Definition execute (w : World) (self : ExecTool) (command : str)
    (working_dir' : option str) : M str :=
  let cwd := effective_cwd w self working_dir' in
  guard_error <- lift (_guard_command w self command cwd) ;;
  match guard_error with
  | Some (c :: msg) => ret (c :: msg)
  | Some [] | None => run_command w self command cwd
  end.

End Shell.

Import Shell.

(* ===================================================================== *)
(** * The same code when [os.getcwd()] and [re.search] raise *)
(* ===================================================================== *)

(** Two calls that [execute] makes before it enters its [try] can raise:
    [os.getcwd()] (line 81; [FileNotFoundError] when the process's
    directory has been removed) and [re.search] (lines 150 and 154;
    [re.error] when a configured pattern is not a well-formed regular
    expression). [Faults] says when they do; the functions below are
    [_guard_command] and [execute] again, line by line, with these
    exceptions propagating as they do in the source. Everything else is
    shared with [Shell]. *)

Module Raising.

Record Faults := {
  (** [os.getcwd()] raises *)
  getcwd_raises : option exn;
  (** [re.search(pattern, text)] raises for this pattern *)
  search_raises : str -> option exn
}.

Definition no_faults : Faults :=
  {| getcwd_raises := None; search_raises := fun _ => None |}.

(** Lines 149-151. *)
Fixpoint deny_loop (f : Faults) (w : World) (lower : str)
    (patterns : list str) : exc (option str) :=
  match patterns with
  | [] => Val None
  | pattern :: rest =>
      match search_raises f pattern with
      | Some e => Exn e
      | None =>
          if re_search w pattern lower then Val (Some msg_dangerous)
          else deny_loop f w lower rest
      end
  end.

(** Line 154: [any(re.search(p, lower) for p in patterns)], which stops at
    the first pattern found. *)
Fixpoint any_search (f : Faults) (w : World) (lower : str)
    (patterns : list str) : exc bool :=
  match patterns with
  | [] => Val false
  | p :: rest =>
      match search_raises f p with
      | Some e => Exn e
      | None =>
          if re_search w p lower then Val true
          else any_search f w lower rest
      end
  end.

Definition _guard_command (f : Faults) (w : World) (self : ExecTool)
    (command cwd : str) : exc (option str) :=
  let cmd := strip command in
  let lower := str_lower w cmd in
  match deny_loop f w lower (deny_patterns self) with
  | Exn e => Exn e
  | Val (Some blocked) => Val (Some blocked)
  | Val None =>
      match allow_patterns self with
      | [] => confine w self cmd cwd
      | _ :: _ =>
          match any_search f w lower (allow_patterns self) with
          | Exn e => Exn e
          | Val false => Val (Some msg_not_allowlisted)
          | Val true => confine w self cmd cwd
          end
      end
  end.

(** Line 81: [working_dir or self.working_dir or os.getcwd()]; the last
    call is made only if the first two are falsy. *)
Definition choose_cwd (f : Faults) (w : World) (self : ExecTool)
    (working_dir' : option str) : exc str :=
  match working_dir' with
  | Some (c :: d) => Val (c :: d)
  | Some [] | None =>
      match working_dir self with
      | Some (c :: d) => Val (c :: d)
      | Some [] | None =>
          match getcwd_raises f with
          | Some e => Exn e
          | None => Val (getcwd w)
          end
      end
  end.

Definition execute (f : Faults) (w : World) (self : ExecTool)
    (command : str) (working_dir' : option str) : M str :=
  cwd <- lift (choose_cwd f w self working_dir') ;;
  guard_error <- lift (_guard_command f w self command cwd) ;;
  match guard_error with
  | Some (c :: msg) => ret (c :: msg)
  | Some [] | None => run_command w self command cwd
  end.

End Raising.

(* ===================================================================== *)
(** * A reference matcher for regular expressions *)
(* ===================================================================== *)

(** The tool hands its deny and allow patterns to Python's [re] module.
    The general theorems below hold for any [re_search]; this module gives
    one, for the fragment of the pattern language that the built-in deny
    patterns use, so that the tool can be evaluated on concrete commands.
    Character classes [\s], [\d], [\w] and the boundary [\b] are those of
    [re] on ASCII text. *)

Module Re.

Inductive item :=
| IChar (c : N)
| IRange (lo hi : N)
| ISpace
| IDigit
| IWord.

Inductive re :=
| Eps
| Chr (c : N)
| Any
| Class (neg : bool) (items : list item)
| Bol
| Eol
| WordB
| Seq (a b : re)
| Alt (a b : re)
| Rep (r : re) (lo : nat) (hi : option nat).

Definition is_digit (c : N) : bool := ((48 <=? c) && (c <=? 57))%N.
Definition is_word (c : N) : bool :=
  (is_ascii_letter c || is_digit c || (c =? 95))%N.

Definition item_matches (x : N) (i : item) : bool :=
  match i with
  | IChar c => (x =? c)%N
  | IRange lo hi => ((lo <=? x) && (x <=? hi))%N
  | ISpace => isspace x
  | IDigit => is_digit x
  | IWord => is_word x
  end.

Definition is_word_opt (c : option N) : bool :=
  match c with Some x => is_word x | None => false end.

Definition below (hi : option nat) (count : nat) : bool :=
  match hi with
  | None => true
  | Some h => (count <? h)%nat
  end.

(** Backtracking matcher in continuation-passing style. [prev] is the
    character before the current position ([None] at the start of the
    text), [s] the rest of the text, and [k] what must match after [r].
    A repetition takes as many iterations as it can (each consuming at
    least one character) before trying fewer. *)
Fixpoint m (r : re) (prev : option N) (s : str)
    (k : option N -> str -> bool) {struct r} : bool :=
  match r with
  | Eps => k prev s
  | Chr c =>
      match s with
      | x :: s' => (x =? c)%N && k (Some x) s'
      | [] => false
      end
  | Any =>
      match s with
      | x :: s' => negb (x =? 10)%N && k (Some x) s'
      | [] => false
      end
  | Class neg items =>
      match s with
      | x :: s' => xorb neg (existsb (item_matches x) items) && k (Some x) s'
      | [] => false
      end
  | Bol =>
      match prev with
      | None => k prev s
      | Some _ => false
      end
  | Eol =>
      match s with
      | [] => k prev s
      | [x] => (x =? 10)%N && k prev s
      | _ => false
      end
  | WordB => xorb (is_word_opt prev) (is_word_opt (hd_error s)) && k prev s
  | Seq a b => m a prev s (fun p' s' => m b p' s' k)
  | Alt a b => m a prev s k || m b prev s k
  | Rep r1 lo hi =>
      (fix go (n count : nat) (prev : option N) (s : str) {struct n}
         : bool :=
         match n with
         | O => (lo <=? count)%nat && k prev s
         | S n' =>
             (below hi count &&
              m r1 prev s
                (fun p' s' =>
                   (List.length s' <? List.length s)%nat
                   && go n' (S count) p' s'))
             || ((lo <=? count)%nat && k prev s)
         end) (S (List.length s)) O prev s
  end.

(** [re.search]: a match starting at some position of the text. *)
Fixpoint search_at (r : re) (prev : option N) (s : str) : bool :=
  m r prev s (fun _ _ => true) ||
  match s with
  | [] => false
  | c :: s' => search_at r (Some c) s'
  end.

Definition search (r : re) (s : str) : bool := search_at r None s.

(** The character before the position reached after reading [pre], when
    [prev] was the character before [pre]. *)
Definition after (prev : option N) (pre : str) : option N :=
  fold_left (fun _ c => Some c) pre prev.

(** ** Parsing the pattern syntax *)

(** A decimal number at the head of [s]. *)
Fixpoint digits (acc : option nat) (s : str) : option nat * str :=
  match s with
  | c :: s' =>
      if is_digit c
      then digits (Some (10 * match acc with Some a => a | None => 0 end
                         + N.to_nat (c - 48))%nat) s'
      else (acc, s)
  | [] => (acc, s)
  end.

(** A quantifier after the atom [a], if there is one. *)
Definition parse_quant (a : re) (s : str) : re * str :=
  match s with
  | c :: rest =>
      if (c =? 42)%N then (Rep a 0 None, rest)
      else if (c =? 43)%N then (Rep a 1 None, rest)
      else if (c =? 63)%N then (Rep a 0 (Some 1%nat), rest)
      else if (c =? 123)%N then
        match digits None rest with
        | (lo, c1 :: rest1) =>
            if (c1 =? 125)%N then
              match lo with
              | Some n => (Rep a n (Some n), rest1)
              | None => (a, s)
              end
            else if (c1 =? 44)%N then
              match digits None rest1 with
              | (hi, c2 :: rest2) =>
                  if (c2 =? 125)%N
                  then (Rep a (match lo with Some n => n | None => 0 end) hi,
                        rest2)
                  else (a, s)
              | _ => (a, s)
              end
            else (a, s)
        | _ => (a, s)
        end
      else (a, s)
  | [] => (a, s)
  end.

(** A class escape or a plain escaped character. *)
Definition escape_item (c : N) : option item :=
  if (c =? 115)%N then Some ISpace
  else if (c =? 100)%N then Some IDigit
  else if (c =? 119)%N then Some IWord
  else if (c =? 110)%N then Some (IChar 10)
  else if (c =? 116)%N then Some (IChar 9)
  else if (c =? 114)%N then Some (IChar 13)
  else if is_ascii_letter c || is_digit c then None
  else Some (IChar c).

(** The items of a bracketed class, up to the closing bracket. *)
Fixpoint parse_items (fuel : nat) (s : str) : option (list item * str) :=
  match fuel with
  | O => None
  | S f =>
      match s with
      | [] => None
      | c :: rest =>
          if (c =? 93)%N then Some ([], rest)
          else if (c =? 92)%N then
            match rest with
            | e :: rest' =>
                match escape_item e, parse_items f rest' with
                | Some i, Some (its, out) => Some (i :: its, out)
                | _, _ => None
                end
            | [] => None
            end
          else
            match rest with
            | d :: hi :: rest' =>
                if ((d =? 45) && negb (hi =? 93))%N then
                  match parse_items f rest' with
                  | Some (its, out) => Some (IRange c hi :: its, out)
                  | None => None
                  end
                else
                  match parse_items f rest with
                  | Some (its, out) => Some (IChar c :: its, out)
                  | None => None
                  end
            | _ =>
                match parse_items f rest with
                | Some (its, out) => Some (IChar c :: its, out)
                | None => None
                end
            end
      end
  end.

Definition parse_class (s : str) : option (re * str) :=
  let '(neg, body) :=
    match s with
    | c :: rest => if (c =? 94)%N then (true, rest) else (false, s)
    | [] => (false, s)
    end in
  match parse_items (S (List.length body)) body with
  | Some (its, out) => Some (Class neg its, out)
  | None => None
  end.

Definition parse_escape (s : str) : option (re * str) :=
  match s with
  | c :: rest =>
      if (c =? 98)%N then Some (WordB, rest)
      else if (c =? 83)%N then Some (Class true [ISpace], rest)
      else if (c =? 68)%N then Some (Class true [IDigit], rest)
      else if (c =? 87)%N then Some (Class true [IWord], rest)
      else
        match escape_item c with
        | Some (IChar x) => Some (Chr x, rest)
        | Some i => Some (Class false [i], rest)
        | None => None
        end
  | [] => None
  end.

Fixpoint parse_alt (fuel : nat) (s : str) : option (re * str) :=
  match fuel with
  | O => None
  | S f =>
      match parse_seq f s with
      | Some (a, c :: rest) =>
          if (c =? 124)%N then
            match parse_alt f rest with
            | Some (b, rest') => Some (Alt a b, rest')
            | None => None
            end
          else Some (a, c :: rest)
      | r => r
      end
  end
with parse_seq (fuel : nat) (s : str) : option (re * str) :=
  match fuel with
  | O => None
  | S f =>
      match s with
      | [] => Some (Eps, [])
      | c :: _ =>
          if ((c =? 124) || (c =? 41))%N then Some (Eps, s)
          else
            match parse_atom f s with
            | Some (a, rest) =>
                let '(a', rest') := parse_quant a rest in
                match parse_seq f rest' with
                | Some (b, rest'') => Some (Seq a' b, rest'')
                | None => None
                end
            | None => None
            end
      end
  end
with parse_atom (fuel : nat) (s : str) : option (re * str) :=
  match fuel with
  | O => None
  | S f =>
      match s with
      | [] => None
      | c :: rest =>
          if (c =? 40)%N then
            let body :=
              match rest with
              | q :: rest1 =>
                  if (q =? 63)%N then
                    match rest1 with
                    | x :: rest2 => if (x =? 58)%N then Some rest2 else None
                    | [] => None
                    end
                  else Some rest
              | [] => Some rest
              end in
            match body with
            | Some b =>
                match parse_alt f b with
                | Some (r, x :: rest') =>
                    if (x =? 41)%N then Some (r, rest') else None
                | _ => None
                end
            | None => None
            end
          else if (c =? 91)%N then parse_class rest
          else if (c =? 92)%N then parse_escape rest
          else if (c =? 46)%N then Some (Any, rest)
          else if (c =? 94)%N then Some (Bol, rest)
          else if (c =? 36)%N then Some (Eol, rest)
          else if ((c =? 42) || (c =? 43) || (c =? 63))%N then None
          else Some (Chr c, rest)
      end
  end.

Definition parse (p : str) : option re :=
  match parse_alt (3 * List.length p + 3) p with
  | Some (r, []) => Some r
  | _ => None
  end.

(** [re.search(pattern, text)] for a pattern of the fragment; a pattern
    outside it finds nothing. *)
Definition re_search (pattern text : str) : bool :=
  match parse pattern with
  | Some r => search r text
  | None => false
  end.

End Re.

(* ===================================================================== *)
(** * A concrete host *)
(* ===================================================================== *)

(** A small host on which the tool can be run: ASCII lower-casing, the
    reference matcher, a file system without symbolic links, a decoder that
    is exact on ASCII, and a table of programs. *)

Module Demo.

Definition lower_char (c : N) : N :=
  if ((65 <=? c) && (c <=? 90))%N then (c + 32)%N else c.

Definition ascii_lower (s : str) : str := map lower_char s.

(** [s.split(sep)] for a one-character separator; [cur] is the piece being
    read, reversed. *)
Fixpoint split (sep : N) (cur : str) (s : str) : list str :=
  match s with
  | [] => [rev cur]
  | c :: s' =>
      if (c =? sep)%N then rev cur :: split sep [] s'
      else split sep (c :: cur) s'
  end.

Definition process_cwd : list str := [lit "home"; lit "user"].

(** Lexical resolution: empty and [.] components are dropped, [..] goes
    up, a relative path starts from the process's directory. A NUL
    character makes the system call fail. *)
Definition lexical_resolve (s : str) : exc Path :=
  if existsb (N.eqb 0) s then Exn (Exception (lit "embedded null byte"))
  else
    let base := if startswith (lit "/") s then [] else process_cwd in
    Val (mkPath (lit "/")
           (fold_left
              (fun acc c =>
                 if PyStr.eqb c [] || PyStr.eqb c (lit ".") then acc
                 else if PyStr.eqb c (lit "..") then removelast acc
                 else acc ++ [c])
              (split 47 [] s) base)).

(** Bytes below 128 decode to themselves, any other byte to U+FFFD. *)
Definition ascii_decode (b : bytes) : str :=
  map (fun x => let n := Byte.to_N x in
                if (n <? 128)%N then n else 65533%N) b.

Definition bytes_of (s : string) : bytes :=
  map byte_of_ascii (list_ascii_of_string s).

(** A process that finishes at once with the given streams and code. *)
Definition finishes (out err : bytes) (code : Z) : Process :=
  {| communicate := fun _ => Val (out, err);
     returncode := code;
     kill := Exn (Exception []);
     wait := fun _ => Exited code |}.

(** A process that needs [seconds] to finish and prints nothing. *)
Definition sleeps (seconds : Z) : Process :=
  {| communicate := fun t =>
       if (t <? seconds)%Z then Exn TimeoutError else Val ([], []);
     returncode := 0;
     kill := Val tt;
     wait := fun _ => Exited (-9) |}.

(** A process that exits just as a wait of [seconds] gives up: the wait
    times out, and the process is gone when it is to be killed. *)
Definition exits_at_deadline (seconds : Z) : Process :=
  {| communicate := fun t =>
       if (t <=? seconds)%Z then Exn TimeoutError else Val ([], []);
     returncode := 0;
     kill := Exn (Exception []);
     wait := fun _ => Exited 0 |}.

(** What [sh -c command] does on this host. *)
Definition run (command : str) : exc Process :=
  if PyStr.eqb command (lit "echo hello")
  then Val (finishes (bytes_of "hello" ++ [Byte.x0a]) [] 0)
  else if PyStr.eqb command (lit "sleep 2") then Val (sleeps 2)
  else if PyStr.eqb command (lit "sleep 1") then Val (exits_at_deadline 1)
  else if PyStr.eqb command (lit "false") then Val (finishes [] [] 1)
  else if PyStr.eqb command (lit "yes | head -c 12345")
  then Val (finishes (repeat Byte.x79 (Z.to_nat 12345)) [] 0)
  else if PyStr.eqb command (lit "yes | head -c 10001; false")
  then Val (finishes (repeat Byte.x79 (Z.to_nat 10001)) [] 1)
  else if PyStr.eqb command (lit "git status")
  then Val (finishes (bytes_of "nothing to commit" ++ [Byte.x0a]) [] 0)
  else if PyStr.eqb command (lit "ls")
  then Val (finishes (bytes_of "README.md" ++ [Byte.x0a]) [] 0)
  else if startswith (lit "history append ") command
  then Val (finishes [] [] 0)
  else Val (finishes [] (bytes_of "command not found" ++ [Byte.x0a]) 127).

Definition host (shells : str -> option str) : World :=
  {| which := shells;
     getcwd := lit "/home/user";
     environ := [(lit "PATH", lit "/usr/bin:/bin")];
     pathsep := lit ":";
     re_search := Re.re_search;
     str_lower := ascii_lower;
     resolve := lexical_resolve;
     decode := ascii_decode;
     create_subprocess_exec := fun program args cwd env =>
       match args with
       | [_; command] => run command
       | _ => Exn (Exception (lit "usage: sh -c command"))
       end |}.

(** A machine with bash only, and one with fish as well. *)
Definition bash_only (name : str) : option str :=
  if PyStr.eqb name (lit "bash") then Some (lit "/bin/bash")
  else if PyStr.eqb name (lit "sh") then Some (lit "/bin/sh")
  else None.

Definition with_fish (name : str) : option str :=
  if PyStr.eqb name (lit "fish") then Some (lit "/usr/bin/fish")
  else bash_only name.

Definition bash_host : World := host bash_only.

(** The bash machine after its shell binary has been removed: every spawn
    fails. *)
Definition broken_host : World :=
  {| which := bash_only;
     getcwd := lit "/home/user";
     environ := [(lit "PATH", lit "/usr/bin:/bin")];
     pathsep := lit ":";
     re_search := Re.re_search;
     str_lower := ascii_lower;
     resolve := lexical_resolve;
     decode := ascii_decode;
     create_subprocess_exec := fun _ _ _ _ =>
       Exn (Exception (lit "[Errno 2] No such file or directory: '/bin/bash'"))
  |}.
Definition fish_host : World := host with_fish.

(** [ExecTool()], [ExecTool(timeout=1)],
    [ExecTool(restrict_to_workspace=True)], [ExecTool(deny_patterns=[])]
    and [ExecTool(allow_patterns=["^git "])] on the bash machine. *)
Definition tool : ExecTool := default_tool bash_host.
Definition tool_t1 : ExecTool := __init__ bash_host 1 None None None false [].
Definition tool_restricted : ExecTool :=
  __init__ bash_host 60 None None None true [].
Definition tool_deny_empty : ExecTool :=
  __init__ bash_host 60 None (Some []) None false [].
Definition tool_git_only : ExecTool :=
  __init__ bash_host 60 None None (Some [lit "^git "]) false [].
Definition fish_tool : ExecTool := default_tool fish_host.

End Demo.

(* ===================================================================== *)
(** * Vocabulary of the statements *)
(* ===================================================================== *)

(** The text the deny and allow patterns are searched in. *)
Definition lowered (w : World) (command : str) : str :=
  str_lower w (strip command).

(** Some pattern of the list is found in the text. *)
Definition matches_any (w : World) (patterns : list str) (text : str)
  : bool :=
  existsb (fun p => re_search w p text) patterns.

(** The command passes the allow check. *)
Definition allowlisted (w : World) (self : ExecTool) (command : str) : bool :=
  match allow_patterns self with
  | [] => true
  | _ :: _ => matches_any w (allow_patterns self) (lowered w command)
  end.

(** The text contains a parent-directory traversal token. *)
Definition has_traversal (text : str) : Prop :=
  infix (lit "../") text \/ infix (lit "..\") text.

(** A resolved path is outside the working directory: neither the
    directory itself nor below it. *)
Definition outside (cwd_path p : Path) : Prop :=
  p <> cwd_path /\ ~ descendant cwd_path p.

(** The two shapes of extracted literals. *)
Definition win_literal (m : str) : Prop :=
  exists l body,
    m = l :: 58%N :: 92%N :: body /\ is_ascii_letter l = true /\
    body <> [] /\ forallb win_body body = true.

Definition posix_literal (g : str) : Prop :=
  exists body,
    g = 47%N :: body /\ body <> [] /\ forallb posix_body body = true.

(** The text [b] after a literal does not continue it. *)
Definition stops (body : N -> bool) (b : str) : Prop :=
  match b with
  | [] => True
  | c :: _ => body c = false
  end.

(** The text [a] before a POSIX literal: nothing, or something ending in
    whitespace, a pipe or [>]. *)
Definition leads (a : str) : Prop :=
  a = [] \/ exists a' c, a = a' ++ [c] /\ posix_lead c = true.

(** The call that starts the command. *)
Definition main_spawn (w : World) (self : ExecTool) (command : str)
    (wd : option str) : exc Process :=
  create_subprocess_exec w (shell self) [lit "-c"; command]
    (Some (effective_cwd w self wd)) (Some (child_env w self)).

Definition main_spawn_event (w : World) (self : ExecTool) (command : str)
    (wd : option str) : Event :=
  Spawn MainCommand (shell self) [lit "-c"; command]
    (Some (effective_cwd w self wd)) (Some (child_env w self)) PIPE PIPE.

(** The output of a completed run before truncation. *)
Definition rendered (w : World) (stdout stderr : bytes) (code : Z) : str :=
  joined (output_parts w stdout stderr code).

(** The exit-code part and the truncation marker. *)
Definition annotation (code : Z) : str :=
  [10%N] ++ lit "Exit code: " ++ of_Z code.

Definition marker (n : Z) : str :=
  lit "... (truncated, " ++ of_Z n ++ lit " more chars)".


Definition is_history_spawn (e : Event) : bool :=
  match e with Spawn HistoryAppend _ _ _ _ _ _ => true | _ => false end.

Definition history_attempts (tr : list Event) : nat :=
  List.length (filter is_history_spawn tr).

(** The events of [_add_to_history]. *)
Definition history_events (self : ExecTool) (command : str) : list Event :=
  if contains (lit "fish") (shell self)
  then [Spawn HistoryAppend (shell self)
          [lit "-c";
           lit "history append '"
           ++ replace1 39 (lit "'" ++ [34%N] ++ lit "'" ++ [34%N] ++ lit "'")
                command
           ++ lit "'"]
          None None DEVNULL DEVNULL]
  else [].

(** No directory is given to the call or configured, so that
    [os.getcwd()] is asked. *)
Definition needs_getcwd (self : ExecTool) (wd : option str) : bool :=
  match wd, working_dir self with
  | Some (_ :: _), _ => false
  | _, Some (_ :: _) => false
  | _, _ => true
  end.

(** The same tool without an allow-list. *)
Definition without_allowlist (self : ExecTool) : ExecTool :=
  {| timeout := timeout self;
     working_dir := working_dir self;
     deny_patterns := deny_patterns self;
     allow_patterns := [];
     restrict_to_workspace := restrict_to_workspace self;
     path_append := path_append self;
     shell := shell self |}.

(** The names [_detect_shell] tries, in order, and whether [which] finds
    one. *)
Definition shell_names : list str :=
  [lit "fish"; lit "bash"; lit "zsh"; lit "sh"].

Definition found (w : World) (name : str) : bool :=
  match which w name with
  | Some shell_path => truthy shell_path
  | None => false
  end.

(** The directory a call runs in, spelled out: the call's own argument if
    it is a non-empty string, else the configured one if that is a
    non-empty string, else the process's current directory. *)
Definition selected_directory (w : World) (self : ExecTool)
    (wd : option str) : str :=
  match wd with
  | Some (c :: d) => c :: d
  | _ =>
      match working_dir self with
      | Some (c :: d) => c :: d
      | _ => getcwd w
      end
  end.

(** A text made of blanks only. *)
Definition blank (s : str) : bool := forallb isspace s.

(** [quoted_word word value]: [word] is a sequence of single-quoted runs
    that contain no single quote, and of double-quoted single quotes;
    [value] is what the runs and quotes spell, in order. *)
Inductive quoted_word : str -> str -> Prop :=
| quoted_nil : quoted_word [] []
| quoted_single (body rest value : str) :
    ~ In 39%N body ->
    quoted_word rest value ->
    quoted_word (39%N :: body ++ 39%N :: rest) (body ++ value)
| quoted_double (rest value : str) :
    quoted_word rest value ->
    quoted_word (34%N :: 39%N :: 34%N :: rest) (39%N :: value).

(* ===================================================================== *)
(** * Strings: the boolean tests and their meaning *)
(* ===================================================================== *)

Section StringFacts.

Lemma eqb_eq (a b : str) : PyStr.eqb a b = true <-> a = b.
Proof.
  revert b; induction a as [|x a IH]; intros [|y b]; simpl;
    try (split; [discriminate | discriminate]); try tauto.
  rewrite andb_true_iff, N.eqb_eq, IH.
  split; [intros [-> ->]; reflexivity | intros H; inversion H; auto].
Qed.

Lemma eqb_refl (a : str) : PyStr.eqb a a = true.
Proof. apply eqb_eq; reflexivity. Qed.

Lemma startswith_prefix (p s : str) : startswith p s = true <-> prefix p s.
Proof.
  revert s; induction p as [|x p IH]; intros s; simpl.
  - split; [intros _; exists s; reflexivity | reflexivity].
  - destruct s as [|y s].
    + split; [discriminate | intros [t Ht]; discriminate].
    + rewrite andb_true_iff, N.eqb_eq, IH. split.
      * intros [-> [t ->]]. exists t; reflexivity.
      * intros [t Ht]. inversion Ht; subst. split; [reflexivity|].
        exists t; reflexivity.
Qed.

Lemma contains_infix (n h : str) : contains n h = true <-> infix n h.
Proof.
  induction h as [|c h IH].
  - simpl. rewrite orb_false_r, startswith_prefix. split.
    + intros [t Ht]. exists [], t. exact Ht.
    + intros [a [b Hab]]. destruct a; [exists b; exact Hab|discriminate].
  - cbn [contains]. rewrite orb_true_iff, startswith_prefix, IH. split.
    + intros [[t Ht] | [a [b Hab]]].
      * exists [], t. exact Ht.
      * exists (c :: a), b. rewrite Hab. reflexivity.
    + intros [[|x a] [b Hab]].
      * left. exists b. exact Hab.
      * right. inversion Hab; subst. exists a, b. reflexivity.
Qed.

Lemma contains_false_infix (n h : str) : contains n h = false <-> ~ infix n h.
Proof.
  rewrite <- contains_infix. destruct (contains n h); split; congruence.
Qed.

Lemma infix_refl (s : str) : infix s s.
Proof. exists [], []. rewrite app_nil_r. reflexivity. Qed.

Lemma infix_trans (a b c : str) : infix a b -> infix b c -> infix a c.
Proof.
  intros [x [y ->]] [u [v ->]]. exists (u ++ x), (y ++ v).
  repeat rewrite <- app_assoc. reflexivity.
Qed.

Lemma infix_rev (a s : str) : infix a s -> infix (rev a) (rev s).
Proof.
  intros [x [y ->]]. exists (rev y), (rev x).
  repeat rewrite rev_app_distr. rewrite <- app_assoc. reflexivity.
Qed.

Lemma infix_In (c : N) (e s : str) : In c e -> infix e s -> In c s.
Proof.
  intros Hc [a [b ->]]. apply in_or_app; right. apply in_or_app; left.
  exact Hc.
Qed.

(** Stripping removes blanks at the two ends only. *)
Lemma lstrip_suffix (s : str) : suffix (lstrip s) s.
Proof.
  unfold lstrip. induction s as [|c s [t Ht]]; simpl.
  - exists []. reflexivity.
  - destruct (isspace c).
    + exists (c :: t). simpl. congruence.
    + exists []. reflexivity.
Qed.

Lemma strip_infix (s : str) : infix (strip s) s.
Proof.
  unfold strip, rstrip.
  destruct (lstrip_suffix s) as [a Ha].
  destruct (lstrip_suffix (rev (lstrip s))) as [b Hb].
  apply (f_equal (@rev N)) in Hb.
  rewrite rev_involutive, rev_app_distr in Hb.
  exists a, (rev b). etransitivity; [exact Ha|]. f_equal. exact Hb.
Qed.

Lemma infix_lstrip (c : N) (tok s : str) :
  isspace c = false -> infix (c :: tok) s -> infix (c :: tok) (lstrip s).
Proof.
  intros Hc. unfold lstrip. induction s as [|x s IH]; intros H; simpl.
  - exact H.
  - destruct (isspace x) eqn:Hx; [|exact H].
    apply IH. destruct H as [[|y a] [b Hab]].
    + simpl in Hab. inversion Hab; subst. congruence.
    + inversion Hab; subst. exists a, b. reflexivity.
Qed.

(** A token that neither starts nor ends with a blank survives
    [strip]. *)
Lemma infix_strip (tok s : str) :
  (exists c t, tok = c :: t /\ isspace c = false) ->
  (exists c t, rev tok = c :: t /\ isspace c = false) ->
  infix tok s -> infix tok (strip s).
Proof.
  intros [c [t [-> Hc]]] [d [u [Hrev Hd]]] H.
  unfold strip, rstrip.
  apply (infix_lstrip _ _ _ Hc) in H.
  apply infix_rev in H. rewrite Hrev in H.
  apply (infix_lstrip _ _ _ Hd) in H.
  apply infix_rev in H. rewrite <- Hrev in H.
  rewrite rev_involutive in H. exact H.
Qed.

Lemma has_traversal_strip (command : str) :
  has_traversal command <-> has_traversal (strip command).
Proof.
  unfold has_traversal. split.
  - intros [H|H]; [left|right]; (apply infix_strip; [| |exact H]);
      eexists; eexists; (split; [reflexivity|reflexivity]).
  - intros [H|H]; [left|right];
      exact (infix_trans _ _ _ H (strip_infix command)).
Qed.

Lemma join_snoc (sep a : str) (l : list str) :
  l <> [] -> join sep (l ++ [a]) = join sep l ++ sep ++ a.
Proof.
  induction l as [|p l IH]; [congruence|]. intros _.
  destruct l as [|q l].
  - reflexivity.
  - change (join sep ((p :: q :: l) ++ [a]))
      with (p ++ sep ++ join sep ((q :: l) ++ [a])).
    rewrite IH by discriminate.
    change (join sep (p :: q :: l)) with (p ++ sep ++ join sep (q :: l)).
    repeat rewrite <- app_assoc. reflexivity.
Qed.

End StringFacts.

(* ===================================================================== *)
(** * Paths: ancestors and equality *)
(* ===================================================================== *)

Section PathFacts.

Lemma names_eqb_eq (a b : list str) : names_eqb a b = true <-> a = b.
Proof.
  revert b; induction a as [|x a IH]; intros [|y b]; simpl;
    try (split; [discriminate | discriminate]); try tauto.
  rewrite andb_true_iff, eqb_eq, IH.
  split; [intros [-> ->]; reflexivity | intros H; inversion H; auto].
Qed.

Lemma path_eqb_eq (p q : Path) : path_eqb p q = true <-> p = q.
Proof.
  destruct p as [pa pn], q as [qa qn]. unfold path_eqb; simpl.
  rewrite andb_true_iff, eqb_eq, names_eqb_eq.
  split; [intros [-> ->]; reflexivity | intros H; inversion H; auto].
Qed.

Lemma in_proper_prefixes (l n : list str) :
  In l (proper_prefixes n) <-> exists x rest, n = l ++ x :: rest.
Proof.
  revert l; induction n as [|y n IH]; intros l; simpl.
  - split; [tauto | intros [x [rest H]]; destruct l; discriminate].
  - split.
    + intros [<- | H].
      * exists y, n. reflexivity.
      * apply in_map_iff in H. destruct H as [l' [<- H]].
        apply IH in H. destruct H as [x [rest ->]].
        exists x, rest. reflexivity.
    + intros [x [rest H]]. destruct l as [|z l].
      * left. reflexivity.
      * right. inversion H; subst. apply in_map.
        apply IH. exists x, rest. reflexivity.
Qed.

(** [c in p.parents] says that [p] lies strictly below [c]. *)
Lemma path_in_parents (c p : Path) :
  path_in c (parents p) = true <-> descendant c p.
Proof.
  unfold path_in, parents, descendant. rewrite existsb_exists. split.
  - intros [q [Hq Heq]]. apply path_eqb_eq in Heq. subst q.
    apply in_rev in Hq. apply in_map_iff in Hq.
    destruct Hq as [l [<- Hl]]. simpl.
    split; [reflexivity|]. apply in_proper_prefixes. exact Hl.
  - intros [Ha Hn]. exists c. split; [|apply path_eqb_eq; reflexivity].
    apply -> in_rev. apply in_map_iff. exists (names c).
    split; [|apply in_proper_prefixes; exact Hn].
    destruct c; simpl in *. congruence.
Qed.

(** The test of line 168, on a resolved path. *)
Lemma outside_test (c p : Path) :
  negb (path_in c (parents p)) && negb (path_eqb p c) = true <-> outside c p.
Proof.
  unfold outside. rewrite andb_true_iff, !negb_true_iff.
  rewrite <- path_in_parents, <- path_eqb_eq.
  destruct (path_in c (parents p)), (path_eqb p c); split;
    intros [? ?]; split; congruence.
Qed.

End PathFacts.

(* ===================================================================== *)
(** * The guard, stage by stage *)
(* ===================================================================== *)

Section GuardFacts.

Variable w : World.

Lemma deny_loop_matches (text : str) (patterns : list str) :
  deny_loop w text patterns =
  if matches_any w patterns text then Some msg_dangerous else None.
Proof.
  induction patterns as [|p ps IH]; simpl; [reflexivity|].
  destruct (re_search w p text); simpl; [reflexivity | exact IH].
Qed.

(** The first matching pattern decides: the patterns before it were tried
    and did not match, those after it are not consulted. *)
Lemma deny_loop_first (text : str) (before after : list str) (p : str) :
  matches_any w before text = false ->
  re_search w p text = true ->
  deny_loop w text (before ++ p :: after) = Some msg_dangerous.
Proof.
  intros Hb Hp. induction before as [|q qs IH]; simpl in *.
  - rewrite Hp. reflexivity.
  - apply orb_false_iff in Hb. destruct Hb as [-> Hb]. auto.
Qed.

Lemma matches_any_In (patterns : list str) (text : str) :
  matches_any w patterns text = true <->
  exists p, In p patterns /\ re_search w p text = true.
Proof. unfold matches_any. apply existsb_exists. Qed.

Lemma path_loop_cases (c : Path) (raws : list str) :
  (path_loop w c raws = Some msg_outside /\
   exists raw p, In raw raws /\ resolve w (strip raw) = Val p /\
                 is_absolute p = true /\ outside c p)
  \/
  (path_loop w c raws = None /\
   ~ exists raw p, In raw raws /\ resolve w (strip raw) = Val p /\
                   is_absolute p = true /\ outside c p).
Proof.
  induction raws as [|raw raws IH]; simpl.
  - right. split; [reflexivity|]. intros [r [p [[] _]]].
  - destruct (resolve w (strip raw)) as [p|e] eqn:Hres.
    + destruct (is_absolute p) eqn:Habs; simpl.
      * destruct (negb (path_in c (parents p)) && negb (path_eqb p c))
          eqn:Hout.
        -- left. split; [reflexivity|]. exists raw, p.
           apply outside_test in Hout. auto.
        -- destruct IH as [[H1 [r [q [Hin H]]]] | [H1 H2]].
           ++ left. split; [exact H1|]. exists r, q. auto.
           ++ right. split; [exact H1|].
              intros [r [q [[<- | Hin] [Hr [Ha Ho]]]]].
              ** rewrite Hres in Hr. inversion Hr; subst q.
                 apply outside_test in Ho. congruence.
              ** apply H2. exists r, q. auto.
      * destruct IH as [[H1 [r [q [Hin H]]]] | [H1 H2]].
        -- left. split; [exact H1|]. exists r, q. auto.
        -- right. split; [exact H1|].
           intros [r [q [[<- | Hin] [Hr [Ha Ho]]]]].
           ++ rewrite Hres in Hr. inversion Hr; subst q. congruence.
           ++ apply H2. exists r, q. auto.
    + destruct IH as [[H1 [r [q [Hin H]]]] | [H1 H2]].
      * left. split; [exact H1|]. exists r, q. auto.
      * right. split; [exact H1|].
        intros [r [q [[<- | Hin] [Hr [Ha Ho]]]]].
        -- rewrite Hres in Hr. discriminate.
        -- apply H2. exists r, q. auto.
Qed.

(** The guard as a decision list. *)
Lemma guard_stages (self : ExecTool) (command cwd : str) :
  _guard_command w self command cwd =
  if matches_any w (deny_patterns self) (lowered w command)
  then Val (Some msg_dangerous)
  else if negb (allowlisted w self command)
  then Val (Some msg_not_allowlisted)
  else if restrict_to_workspace self then
    if contains (lit "..\") (strip command)
       || contains (lit "../") (strip command)
    then Val (Some msg_traversal)
    else
      match resolve w cwd with
      | Exn e => Exn e
      | Val cwd_path =>
          Val (path_loop w cwd_path
                 (_extract_absolute_paths (strip command)))
      end
  else Val None.
Proof.
  unfold _guard_command, confine, allowlisted, lowered.
  rewrite deny_loop_matches.
  destruct (matches_any w (deny_patterns self) (str_lower w (strip command)));
    [reflexivity|].
  unfold matches_any. destruct (allow_patterns self); reflexivity.
Qed.

(** Whatever the guard returns is one of its four messages. *)
Lemma guard_messages (self : ExecTool) (command cwd msg : str) :
  _guard_command w self command cwd = Val (Some msg) ->
  msg = msg_dangerous \/ msg = msg_not_allowlisted \/
  msg = msg_traversal \/ msg = msg_outside.
Proof.
  rewrite guard_stages. intros H.
  destruct (matches_any w (deny_patterns self) (lowered w command));
    [inversion H; auto|].
  destruct (negb (allowlisted w self command)); [inversion H; auto|].
  destruct (restrict_to_workspace self); [|discriminate].
  destruct (contains (lit "..\") (strip command)
            || contains (lit "../") (strip command)); [inversion H; auto|].
  destruct (resolve w cwd) as [c|e]; [|discriminate].
  destruct (path_loop_cases c (_extract_absolute_paths (strip command)))
    as [[Hp _] | [Hp _]]; rewrite Hp in H; [inversion H; auto|discriminate].
Qed.

Lemma guard_message_shape (self : ExecTool) (command cwd msg : str) :
  _guard_command w self command cwd = Val (Some msg) ->
  msg <> [] /\ prefix (lit "Error:") msg.
Proof.
  intros H. apply guard_messages in H.
  destruct H as [-> | [-> | [-> | ->]]];
    (split; [discriminate | apply startswith_prefix; reflexivity]).
Qed.

End GuardFacts.

(* ===================================================================== *)
(** * [execute], path by path *)
(* ===================================================================== *)

Section ExecuteFacts.

Variable w : World.
Variable self : ExecTool.
Variable command : str.
Variable wd : option str.

Local Abbreviation cwd := (effective_cwd w self wd).

(** [_add_to_history] performs [history_events] and never raises. *)
Lemma add_to_history_run :
  _add_to_history w self command = (history_events self command, Val tt).
Proof.
  unfold _add_to_history, history_events.
  destruct (contains (lit "fish") (shell self)); [|reflexivity].
  unfold spawn, try_except, bind, emit, lift, ret; simpl.
  match goal with |- context [create_subprocess_exec ?a ?b ?c ?d ?e] =>
    destruct (create_subprocess_exec a b c d e) end; reflexivity.
Qed.


Lemma execute_blocked (msg : str) :
  _guard_command w self command cwd = Val (Some msg) ->
  execute w self command wd = ([], Val msg).
Proof.
  intros H. destruct (guard_message_shape _ _ _ _ _ H) as [Hne _].
  unfold execute, lift, bind. rewrite H.
  destruct msg; [congruence | reflexivity].
Qed.

Lemma execute_spawn_fails (e : exn) :
  _guard_command w self command cwd = Val None ->
  main_spawn w self command wd = Exn e ->
  execute w self command wd =
  ([main_spawn_event w self command wd], Val (msg_exception e)).
Proof.
  intros Hg Hs. unfold main_spawn in Hs.
  unfold execute, run_command, spawn, try_except, lift, bind, emit, ret.
  rewrite Hg. cbv zeta. rewrite Hs. reflexivity.
Qed.

Lemma execute_times_out (process : Process) :
  _guard_command w self command cwd = Val None ->
  main_spawn w self command wd = Val process ->
  communicate process (timeout self) = Exn TimeoutError ->
  kill process = Val tt ->
  execute w self command wd =
  ([main_spawn_event w self command wd; Communicate (timeout self);
    Kill; Wait 5],
   Val (msg_timeout self)).
Proof.
  intros Hg Hs Hc Hk. unfold main_spawn in Hs.
  unfold execute, run_command, spawn, try_except, lift, bind, emit, ret.
  rewrite Hg. cbv zeta. rewrite Hs. cbv beta iota. rewrite Hc.
  cbv beta iota delta [is_TimeoutError]. rewrite Hk.
  destruct (wait process 5); reflexivity.
Qed.

(** The kill itself fails: the exception leaves the timeout handler, the
    wait is not reached, and the outer handler answers. *)
Lemma execute_kill_fails (process : Process) (e : exn) :
  _guard_command w self command cwd = Val None ->
  main_spawn w self command wd = Val process ->
  communicate process (timeout self) = Exn TimeoutError ->
  kill process = Exn e ->
  execute w self command wd =
  ([main_spawn_event w self command wd; Communicate (timeout self); Kill],
   Val (msg_exception e)).
Proof.
  intros Hg Hs Hc Hk. unfold main_spawn in Hs.
  unfold execute, run_command, spawn, try_except, lift, bind, emit, ret.
  rewrite Hg. cbv zeta. rewrite Hs. cbv beta iota. rewrite Hc.
  cbv beta iota delta [is_TimeoutError]. rewrite Hk.
  reflexivity.
Qed.

Lemma execute_communicate_fails (process : Process) (msg : str) :
  _guard_command w self command cwd = Val None ->
  main_spawn w self command wd = Val process ->
  communicate process (timeout self) = Exn (Exception msg) ->
  execute w self command wd =
  ([main_spawn_event w self command wd; Communicate (timeout self)],
   Val (msg_exception (Exception msg))).
Proof.
  intros Hg Hs Hc. unfold main_spawn in Hs.
  unfold execute, run_command, spawn, try_except, lift, bind, emit, ret.
  rewrite Hg. cbv zeta. rewrite Hs. cbv beta iota. rewrite Hc.
  reflexivity.
Qed.

Lemma execute_completes (process : Process) (stdout stderr : bytes) :
  _guard_command w self command cwd = Val None ->
  main_spawn w self command wd = Val process ->
  communicate process (timeout self) = Val (stdout, stderr) ->
  execute w self command wd =
  ([main_spawn_event w self command wd; Communicate (timeout self);
    Rendered (truncated (rendered w stdout stderr (returncode process)))]
   ++ history_events self command,
   Val (truncated (rendered w stdout stderr (returncode process)))).
Proof.
  intros Hg Hs Hc. unfold main_spawn in Hs.
  unfold execute. rewrite Hg. unfold lift at 1. unfold bind at 1.
  unfold run_command. cbv zeta. unfold spawn. rewrite Hs.
  unfold try_except at 2. unfold bind, emit, lift, ret. rewrite Hc.
  cbv beta iota. rewrite add_to_history_run.
  unfold try_except. cbn [app]. rewrite app_nil_r. reflexivity.
Qed.

End ExecuteFacts.

(* ===================================================================== *)
(** * The deny list *)
(* ===================================================================== *)

(** The reference matcher searches, it does not anchor: a match that
    starts after any prefix of the text is found. *)
Lemma search_at_later (r : Re.re) (pre s : str) (prev : option N) :
  Re.m r (Re.after prev pre) s (fun _ _ => true) = true ->
  Re.search_at r prev (pre ++ s) = true.
Proof.
  revert prev. induction pre as [|c pre IH]; intros prev H; simpl in *.
  - destruct s; simpl; rewrite H; reflexivity.
  - rewrite (IH (Some c) H). apply orb_true_r.
Qed.

Lemma search_unanchored (r : Re.re) (pre s : str) :
  Re.m r (Re.after None pre) s (fun _ _ => true) = true ->
  Re.search r (pre ++ s) = true.
Proof. apply search_at_later. Qed.



(** The spec's first scenario, and the patterns at work on the host of
    [Demo]: a pattern is searched for, not anchored, and a later pattern is
    reached when the earlier ones do not match. *)
Example scenario_rm_rf :
  execute Demo.bash_host Demo.tool (lit "rm -rf /") None
  = ([], Val msg_dangerous).
Proof. vm_compute. reflexivity. Qed.

Example scenario_embedded_reboot :
  execute Demo.bash_host Demo.tool (lit "echo done && Reboot") None
  = ([], Val msg_dangerous).
Proof. vm_compute. reflexivity. Qed.

(* ===================================================================== *)
(** * The allow-list *)
(* ===================================================================== *)

(** C5. For a command that no deny pattern matches: if the allow-list is
    non-empty and none of its patterns is found in the trimmed, lower-cased
    text, the guard answers with the not-in-allowlist message (and
    [execute] returns it without starting anything); if some allow pattern
    is found, or the allow-list is empty, the guard does not answer with
    that message and decides exactly as it would without any
    allow-list. *)
Theorem allow_check
    (w : World) (self : ExecTool) (command : str) :
  matches_any w (deny_patterns self) (lowered w command) = false ->
  (allow_patterns self <> [] ->
   matches_any w (allow_patterns self) (lowered w command) = false ->
   (forall cwd,
       _guard_command w self command cwd
       = Val (Some (lit "Error: Command blocked by safety guard (not in allowlist)")))
   /\ forall wd,
        execute w self command wd
        = ([], Val (lit "Error: Command blocked by safety guard (not in allowlist)")))
  /\
  (matches_any w (allow_patterns self) (lowered w command) = true
   \/ allow_patterns self = [] ->
   forall cwd,
     _guard_command w self command cwd
     <> Val (Some (lit "Error: Command blocked by safety guard (not in allowlist)"))
     /\ _guard_command w self command cwd
        = _guard_command w (without_allowlist self) command cwd).
Proof.
  intros Hdeny. split.
  - intros Hne Hno.
    assert (Hg : forall cwd, _guard_command w self command cwd
                             = Val (Some msg_not_allowlisted)).
    { intros cwd. rewrite guard_stages, Hdeny. unfold allowlisted.
      destruct (allow_patterns self); [congruence|].
      rewrite Hno. reflexivity. }
    split; [exact Hg|]. intros wd. apply execute_blocked. apply Hg.
  - intros Hok cwd.
    assert (Hal : allowlisted w self command = true).
    { unfold allowlisted. destruct Hok as [Hm | ->]; [|reflexivity].
      destruct (allow_patterns self); [reflexivity | exact Hm]. }
    assert (Heq : _guard_command w self command cwd
                  = _guard_command w (without_allowlist self) command cwd).
    { rewrite !guard_stages. simpl. rewrite Hdeny, Hal. reflexivity. }
    split; [|exact Heq].
    rewrite guard_stages, Hdeny, Hal. simpl.
    destruct (restrict_to_workspace self); [|discriminate].
    destruct (contains (lit "..\") (strip command)
              || contains (lit "../") (strip command)); [discriminate|].
    destruct (resolve w cwd) as [c|e]; [|discriminate].
    destruct (path_loop_cases w c (_extract_absolute_paths (strip command)))
      as [[Hp _] | [Hp _]]; rewrite Hp; discriminate.
Qed.

Lemma allow_check_witness :
  _guard_command Demo.bash_host Demo.tool_git_only (lit "ls") (lit "/srv")
  = Val (Some (lit "Error: Command blocked by safety guard (not in allowlist)"))
  /\ _guard_command Demo.bash_host Demo.tool_git_only (lit "Git Status")
       (lit "/srv")
     <> Val (Some (lit "Error: Command blocked by safety guard (not in allowlist)")).
Proof.
  split.
  - apply (allow_check Demo.bash_host Demo.tool_git_only (lit "ls"));
      [vm_compute; reflexivity | discriminate | vm_compute; reflexivity].
  - apply (allow_check Demo.bash_host Demo.tool_git_only (lit "Git Status"));
      [vm_compute; reflexivity | left; vm_compute; reflexivity].
Defined.

(** The spec's fifth scenario. *)
Example scenario_allowlist :
  execute Demo.bash_host Demo.tool_git_only (lit "ls") None
  = ([], Val msg_not_allowlisted)
  /\ outcome (execute Demo.bash_host Demo.tool_git_only (lit "git status")
                None)
     = Val (lit "nothing to commit" ++ [10%N]).
Proof. split; vm_compute; reflexivity. Qed.

(* ===================================================================== *)
(** * Path traversal *)
(* ===================================================================== *)

(** C6. With [restrict_to_workspace] on, a command that is neither
    deny-blocked nor allowlist-blocked and whose raw text contains [../] or
    the same with a backslash is blocked with the path-traversal message.
    The token is looked for in the text as given, not in its lower-cased
    form (the lower-casing function plays no role), and nothing is asked
    about absolute paths or the working directory. *)
Theorem traversal_blocks
    (w : World) (self : ExecTool) (command : str) :
  restrict_to_workspace self = true ->
  matches_any w (deny_patterns self) (lowered w command) = false ->
  allowlisted w self command = true ->
  has_traversal command ->
  (forall cwd,
      _guard_command w self command cwd
      = Val (Some (lit "Error: Command blocked by safety guard (path traversal detected)")))
  /\ forall wd,
       execute w self command wd
       = ([], Val (lit "Error: Command blocked by safety guard (path traversal detected)")).
Proof.
  intros Hr Hdeny Hal Htr.
  assert (Hg : forall cwd, _guard_command w self command cwd
                           = Val (Some msg_traversal)).
  { intros cwd. rewrite guard_stages, Hdeny, Hal, Hr. simpl.
    apply has_traversal_strip in Htr.
    destruct Htr as [H | H]; apply contains_infix in H; rewrite H;
      [rewrite orb_true_r|]; reflexivity. }
  split; [exact Hg|]. intros wd. apply execute_blocked. apply Hg.
Qed.

Lemma traversal_blocks_witness :
  _guard_command Demo.bash_host Demo.tool_restricted
    (lit "cat /tmp/work/../../etc/passwd") (lit "/tmp/work")
  = Val (Some (lit "Error: Command blocked by safety guard (path traversal detected)")).
Proof.
  apply (traversal_blocks Demo.bash_host Demo.tool_restricted
           (lit "cat /tmp/work/../../etc/passwd"));
    [reflexivity | vm_compute; reflexivity | reflexivity |].
  left. apply contains_infix. vm_compute. reflexivity.
Defined.

(* ===================================================================== *)
(** * Timeout *)
(* ===================================================================== *)

(** When the process is still there to be killed, a timeout goes as
    intended: the process is killed, waited for with a bound of 5 seconds
    and, whether that wait ends or times out itself, [execute] returns
    exactly ["Error: Command timed out after <timeout> seconds"]. *)
Lemma timeout_when_kill_succeeds
    (w : World) (self : ExecTool) (command : str) (wd : option str)
    (process : Process) :
  _guard_command w self command (effective_cwd w self wd) = Val None ->
  main_spawn w self command wd = Val process ->
  communicate process (timeout self) = Exn TimeoutError ->
  kill process = Val tt ->
  execute w self command wd
  = ([main_spawn_event w self command wd; Communicate (timeout self);
      Kill; Wait 5],
     Val (lit "Error: Command timed out after " ++ of_Z (timeout self)
          ++ lit " seconds")).
Proof. intros Hg Hs Hc Hk. exact (execute_times_out _ _ _ _ _ Hg Hs Hc Hk). Qed.

Example timeout_when_kill_succeeds_on_sleep :
  execute Demo.bash_host Demo.tool_t1 (lit "sleep 2") None
  = ([main_spawn_event Demo.bash_host Demo.tool_t1 (lit "sleep 2") None;
      Communicate 1; Kill; Wait 5],
     Val (lit "Error: Command timed out after " ++ of_Z 1 ++ lit " seconds")).
Proof.
  apply (timeout_when_kill_succeeds Demo.bash_host Demo.tool_t1
           (lit "sleep 2") None (Demo.sleeps 2));
    vm_compute; reflexivity.
Qed.

(** C3. The claim is that every allowed command whose process does not
    complete within the timeout is killed, waited for (at most 5 seconds)
    and answered with exactly
    ["Error: Command timed out after <timeout> seconds"]. The code misses
    one case: [process.kill()] (line 107) is not guarded, so when it raises
    (the child has exited between the timeout and the kill) the exception
    leaves the timeout handler, the wait of lines 110-113 is skipped, and
    the outer handler of line 141 returns
    ["Error executing command: <str(e)>"] instead of the timeout text. *)
Theorem timeout_with_failed_kill
    (w : World) (self : ExecTool) (command : str) (wd : option str)
    (process : Process) (e : exn) :
  _guard_command w self command (effective_cwd w self wd) = Val None ->
  main_spawn w self command wd = Val process ->
  communicate process (timeout self) = Exn TimeoutError ->
  kill process = Exn e ->
  execute w self command wd
  = ([main_spawn_event w self command wd; Communicate (timeout self); Kill],
     Val (lit "Error executing command: " ++ exn_str e))
  /\ ~ In (Wait 5) (trace (execute w self command wd))
  /\ outcome (execute w self command wd)
     <> Val (lit "Error: Command timed out after " ++ of_Z (timeout self)
             ++ lit " seconds").
Proof.
  intros Hg Hs Hc Hk.
  rewrite (execute_kill_fails _ _ _ _ _ _ Hg Hs Hc Hk).
  split; [reflexivity|]. split.
  - unfold trace; cbn [fst]. intros [H | [H | [H | []]]]; discriminate.
  - unfold outcome; cbn [snd]. intros H.
    apply (f_equal (fun o => match o with
                             | Val s => nth 5 s 0%N
                             | Exn _ => 0%N
                             end)) in H.
    vm_compute in H. discriminate.
Qed.

Lemma timeout_with_failed_kill_witness :
  execute Demo.bash_host Demo.tool_t1 (lit "sleep 1") None
  = ([main_spawn_event Demo.bash_host Demo.tool_t1 (lit "sleep 1") None;
      Communicate 1; Kill],
     Val (lit "Error executing command: " ++ exn_str (Exception [])))
  /\ ~ In (Wait 5)
       (trace (execute Demo.bash_host Demo.tool_t1 (lit "sleep 1") None))
  /\ outcome (execute Demo.bash_host Demo.tool_t1 (lit "sleep 1") None)
     <> Val (lit "Error: Command timed out after " ++ of_Z 1
             ++ lit " seconds").
Proof.
  apply (timeout_with_failed_kill Demo.bash_host Demo.tool_t1
           (lit "sleep 1") None (Demo.exits_at_deadline 1) (Exception []));
    vm_compute; reflexivity.
Defined.

(** The spec's third scenario, as a string. *)
Example scenario_sleep :
  outcome (execute Demo.bash_host Demo.tool_t1 (lit "sleep 2") None)
  = Val (lit "Error: Command timed out after 1 seconds").
Proof. vm_compute. reflexivity. Qed.

(** The grace wait may itself time out; the result is the same. *)
Example grace_timeout_same_result :
  let stuck := {| communicate := fun _ => Exn TimeoutError;
                  returncode := 0;
                  kill := Val tt;
                  wait := fun _ => GraceTimedOut |} in
  let w := {| which := Demo.bash_only;
              getcwd := lit "/home/user";
              environ := [];
              pathsep := lit ":";
              re_search := Re.re_search;
              str_lower := Demo.ascii_lower;
              resolve := Demo.lexical_resolve;
              decode := Demo.ascii_decode;
              create_subprocess_exec := fun _ _ _ _ => Val stuck |} in
  outcome (execute w (default_tool w) (lit "cat") None)
  = Val (lit "Error: Command timed out after 60 seconds").
Proof. vm_compute. reflexivity. Qed.

(* ===================================================================== *)
(** * Truncation *)
(* ===================================================================== *)

Lemma truncated_long (r : str) :
  (len r > max_len)%Z ->
  truncated r = slice_to max_len r ++ [10%N] ++ marker (len r - max_len).
Proof.
  intros H. unfold truncated, marker.
  apply Z.gtb_gt in H. rewrite H.
  repeat rewrite <- app_assoc. reflexivity.
Qed.

Lemma truncated_short (r : str) :
  (len r <= max_len)%Z -> truncated r = r.
Proof.
  intros H. unfold truncated.
  destruct (len r >? max_len)%Z eqn:E; [|reflexivity].
  apply Z.gtb_gt in E. lia.
Qed.

Lemma len_slice_to (n : Z) (r : str) :
  (0 <= n <= len r)%Z -> len (slice_to n r) = n.
Proof.
  intros H. unfold len, slice_to in *. rewrite firstn_length_le; lia.
Qed.

(** C7, amended. For a completed run whose rendering [r] is longer than
    10,000 characters, [execute] returns the first 10,000 characters of
    [r], then a line break, then the marker
    ["... (truncated, <n> more chars)"] with [n = len r - 10000]; a
    rendering of at most 10,000 characters is returned as it is. *)
Theorem truncation_keeps_prefix_and_counts
    (w : World) (self : ExecTool) (command : str) (wd : option str)
    (process : Process) (stdout stderr : bytes) :
  _guard_command w self command (effective_cwd w self wd) = Val None ->
  main_spawn w self command wd = Val process ->
  communicate process (timeout self) = Val (stdout, stderr) ->
  let r := rendered w stdout stderr (returncode process) in
  ((len r > 10000)%Z ->
   outcome (execute w self command wd)
   = Val (slice_to 10000 r ++ [10%N]
          ++ lit "... (truncated, " ++ of_Z (len r - 10000)
          ++ lit " more chars)")
   /\ len (slice_to 10000 r) = 10000%Z)
  /\
  ((len r <= 10000)%Z -> outcome (execute w self command wd) = Val r).
Proof.
  intros Hg Hs Hc r.
  rewrite (execute_completes _ _ _ _ _ _ _ Hg Hs Hc). fold r.
  unfold outcome; cbn [snd]. split.
  - intros Hlong. split.
    + rewrite truncated_long by exact Hlong. reflexivity.
    + apply len_slice_to. lia.
  - intros Hshort. rewrite truncated_short by exact Hshort. reflexivity.
Qed.

Lemma truncation_keeps_prefix_and_counts_witness :
  outcome (execute Demo.bash_host Demo.tool (lit "yes | head -c 12345") None)
  = Val (slice_to 10000
           (rendered Demo.bash_host (repeat Byte.x79 (Z.to_nat 12345)) [] 0)
         ++ [10%N] ++ lit "... (truncated, " ++ of_Z 2345
         ++ lit " more chars)").
Proof.
  apply (truncation_keeps_prefix_and_counts Demo.bash_host Demo.tool
           (lit "yes | head -c 12345") None
           (Demo.finishes (repeat Byte.x79 (Z.to_nat 12345)) [] 0)
           (repeat Byte.x79 (Z.to_nat 12345)) []);
    vm_compute; reflexivity.
Defined.

(** The result on a rendering of 12,345 characters is not the first 10,000
    characters immediately followed by the marker: a line break stands
    between them. *)
Lemma truncation_counterexample :
  len (rendered Demo.bash_host (repeat Byte.x79 (Z.to_nat 12345)) [] 0)
  = 12345%Z
  /\ outcome (execute Demo.bash_host Demo.tool (lit "yes | head -c 12345")
                None)
     <> Val (slice_to 10000
               (rendered Demo.bash_host (repeat Byte.x79 (Z.to_nat 12345))
                  [] 0)
             ++ lit "... (truncated, 2345 more chars)").
Proof.
  split; [vm_compute; reflexivity|].
  intros H.
  apply (f_equal (fun o => match o with Val s => len s | Exn _ => 0%Z end))
    in H.
  vm_compute in H. discriminate.
Qed.

(** The spec's sixth scenario: the result ends with the marker. *)
Example scenario_truncated :
  exists head,
    outcome (execute Demo.bash_host Demo.tool (lit "yes | head -c 12345")
               None)
    = Val (head ++ lit "... (truncated, 2345 more chars)").
Proof.
  exists (repeat 121%N (Z.to_nat 10000) ++ [10%N]).
  vm_compute. reflexivity.
Qed.

(* ===================================================================== *)
(** * Constructor: the deny patterns *)
(* ===================================================================== *)

Lemma init_deny_empty (w : World) (t : Z) (wdir : option str)
    (allow : option (list str)) (r : bool) (pa : str) :
  deny_patterns (__init__ w t wdir (Some []) allow r pa)
  = default_deny_patterns
  /\ deny_patterns (__init__ w t wdir None allow r pa)
     = default_deny_patterns.
Proof. split; reflexivity. Qed.

(** C9, amended. A provided non-empty [deny_patterns] sequence replaces
    the built-in defaults entirely: it becomes the tool's deny list, and
    the guard answers with the dangerous-pattern message exactly for the
    commands whose trimmed, lower-cased text one of the provided patterns
    matches. *)
Theorem provided_deny_patterns_override
    (w : World) (t : Z) (wdir : option str) (provided : list str)
    (allow : option (list str)) (r : bool) (pa : str) :
  provided <> [] ->
  deny_patterns (__init__ w t wdir (Some provided) allow r pa) = provided
  /\ forall command cwd,
       _guard_command w (__init__ w t wdir (Some provided) allow r pa)
         command cwd
       = Val (Some (lit "Error: Command blocked by safety guard (dangerous pattern detected)"))
       <-> exists p, In p provided /\
                     re_search w p (str_lower w (strip command)) = true.
Proof.
  intros Hne.
  assert (Hd : deny_patterns (__init__ w t wdir (Some provided) allow r pa)
               = provided).
  { destruct provided; [congruence | reflexivity]. }
  split; [exact Hd|]. intros command cwd.
  rewrite <- matches_any_In. rewrite guard_stages, Hd. unfold lowered.
  destruct (matches_any w provided (str_lower w (strip command)));
    [split; reflexivity|].
  split; [|discriminate]. intros H. exfalso.
  destruct (negb _); [discriminate|].
  destruct (restrict_to_workspace _); [|discriminate].
  destruct (_ || _); [discriminate|].
  destruct (resolve w cwd) as [c|e]; [|discriminate].
  destruct (path_loop_cases w c (_extract_absolute_paths (strip command)))
    as [[Hp _] | [Hp _]]; rewrite Hp in H; discriminate.
Qed.

Lemma provided_deny_patterns_override_witness :
  deny_patterns
    (__init__ Demo.bash_host 60 None (Some [lit "\bsudo\b"]) None false [])
  = [lit "\bsudo\b"]
  /\ _guard_command Demo.bash_host
       (__init__ Demo.bash_host 60 None (Some [lit "\bsudo\b"]) None false [])
       (lit "rm -rf /") (lit "/srv")
     <> Val (Some (lit "Error: Command blocked by safety guard (dangerous pattern detected)")).
Proof.
  destruct (provided_deny_patterns_override Demo.bash_host 60 None
              [lit "\bsudo\b"] None false [])
    as [Hd Hg]; [discriminate|].
  split; [exact Hd|]. intros H. apply Hg in H.
  destruct H as [p [[<- | []] Hp]]. vm_compute in Hp. discriminate.
Defined.

(** With the empty sequence provided, the deny list is not empty: it is the
    built-in one, and [rm -rf /] is still blocked. *)
Lemma provided_empty_deny_patterns_counterexample :
  deny_patterns (__init__ Demo.bash_host 60 None (Some []) None false [])
  <> []
  /\ _guard_command Demo.bash_host
       (__init__ Demo.bash_host 60 None (Some []) None false [])
       (lit "rm -rf /") (lit "/srv")
     = Val (Some (lit "Error: Command blocked by safety guard (dangerous pattern detected)")).
Proof. split; [discriminate | vm_compute; reflexivity]. Qed.

(* ===================================================================== *)
(** * History recording *)
(* ===================================================================== *)




(** On a machine with fish the history command follows the rendering; on
    one without it nothing follows; a blocked or timed-out call records
    nothing. *)
Example history_on_fish :
  trace (execute Demo.fish_host Demo.fish_tool (lit "ls") None)
  = [main_spawn_event Demo.fish_host Demo.fish_tool (lit "ls") None;
     Communicate 60;
     Rendered (lit "README.md" ++ [10%N]);
     Spawn HistoryAppend (lit "/usr/bin/fish")
       [lit "-c"; lit "history append 'ls'"] None None DEVNULL DEVNULL].
Proof. vm_compute. reflexivity. Qed.

Example history_not_on_bash :
  history_attempts (trace (execute Demo.bash_host Demo.tool (lit "ls") None))
  = 0%nat
  /\ history_attempts
       (trace (execute Demo.fish_host Demo.fish_tool (lit "rm -rf /") None))
     = 0%nat
  /\ history_attempts
       (trace (execute Demo.fish_host
                 (__init__ Demo.fish_host 1 None None None false [])
                 (lit "sleep 2") None))
     = 0%nat.
Proof. repeat split; vm_compute; reflexivity. Qed.

(* ===================================================================== *)
(** * The exit-code annotation *)
(* ===================================================================== *)

Section AnnotationFacts.

(** A text without line breaks that occurs across a line break occurs on
    one side of it. *)
Lemma prefix_before_newline (e b x y : str) :
  ~ In 10%N e -> e ++ b = x ++ 10%N :: y -> exists t, x = e ++ t.
Proof.
  revert x; induction e as [|d e IH]; intros x Hn H.
  - exists x. reflexivity.
  - destruct x as [|c x]; simpl in H; inversion H; subst.
    + exfalso. apply Hn. left. reflexivity.
    + destruct (IH x) as [t ->]; [intros Hin; apply Hn; right; exact Hin
                                 | assumption |].
      exists t. reflexivity.
Qed.

Lemma infix_across_newline (e x y : str) :
  ~ In 10%N e -> e <> [] ->
  infix e (x ++ 10%N :: y) -> infix e x \/ infix e y.
Proof.
  intros Hn Hne. induction x as [|c x IH]; intros [a [b H]].
  - destruct a as [|c a]; simpl in H.
    + destruct e as [|d e]; [congruence|]. inversion H; subst.
      exfalso. apply Hn. left. reflexivity.
    + inversion H; subst. right. exists a, b. reflexivity.
  - destruct a as [|d a].
    + simpl in H. symmetry in H.
      change (c :: x ++ 10%N :: y) with ((c :: x) ++ 10%N :: y) in H.
      symmetry in H.
      destruct (prefix_before_newline e b (c :: x) y Hn) as [t Ht].
      { symmetry. exact H. }
      left. exists [], t. exact Ht.
    + inversion H; subst.
      destruct IH as [[a' [b' ->]] | Hy].
      * exists a, b. assumption.
      * left. exists (d :: a'), b'. reflexivity.
      * right. exact Hy.
Qed.

Lemma infix_join_newline (e : str) (parts : list str) :
  ~ In 10%N e -> e <> [] ->
  infix e (join [10%N] parts) -> exists p, In p parts /\ infix e p.
Proof.
  intros Hn Hne. induction parts as [|p parts IH]; intros H.
  - destruct H as [[|c a] [b H]]; destruct e; try congruence; discriminate.
  - destruct parts as [|q parts].
    + exists p. split; [left; reflexivity | exact H].
    + change (join [10%N] (p :: q :: parts))
        with (p ++ 10%N :: join [10%N] (q :: parts)) in H.
      apply infix_across_newline in H; try assumption.
      destruct H as [H | H].
      * exists p. split; [left; reflexivity | exact H].
      * destruct (IH H) as [p' [Hin Hp']].
        exists p'. split; [right; exact Hin | exact Hp'].
Qed.

Lemma infix_firstn (e r : str) (n : nat) : infix e (firstn n r) -> infix e r.
Proof.
  intros [a [b H]]. exists a, (b ++ skipn n r).
  rewrite <- (firstn_skipn n r) at 1. rewrite H.
  repeat rewrite <- app_assoc. reflexivity.
Qed.

(** The decimal rendering of an integer consists of digits and possibly a
    minus sign. *)
Lemma uint_chars (u : Decimal.uint) (c : N) :
  In c (lit (NilEmpty.string_of_uint u)) -> (48 <= c <= 57)%N.
Proof.
  unfold lit. induction u; simpl; try tauto;
    (intros [<- | H]; [vm_compute; split; discriminate | auto]).
Qed.

Lemma of_Z_chars (z : Z) (c : N) :
  In c (of_Z z) -> c = 45%N \/ (48 <= c <= 57)%N.
Proof.
  unfold of_Z, NilZero.string_of_int.
  assert (Hu : forall u, In c (lit (NilZero.string_of_uint u)) ->
                         (48 <= c <= 57)%N).
  { intros u. unfold NilZero.string_of_uint. destruct u;
      try apply uint_chars.
    simpl. intros [<- | []]. vm_compute; split; discriminate. }
  destruct (Z.to_int z) as [u|u].
  - intros H. right. exact (Hu u H).
  - simpl. intros [<- | H]; [left; reflexivity | right; exact (Hu u H)].
Qed.

Lemma notin_by_test (c : N) (s : str) :
  existsb (N.eqb c) s = false -> ~ In c s.
Proof.
  intros H Hin.
  assert (existsb (N.eqb c) s = true).
  { apply existsb_exists. exists c. split; [exact Hin | apply N.eqb_refl]. }
  congruence.
Qed.

Lemma marker_has_no_E (n : Z) : ~ In 69%N (marker n).
Proof.
  unfold marker. intros H.
  apply in_app_or in H. destruct H as [H | H].
  - revert H. apply notin_by_test. reflexivity.
  - apply in_app_or in H. destruct H as [H | H].
    + apply of_Z_chars in H. destruct H as [H | H]; [discriminate | lia].
    + revert H. apply notin_by_test. reflexivity.
Qed.

Variable w : World.

(** The exit-code part is appended exactly when the code is not zero; the
    other parts do not depend on the code. *)
Lemma output_parts_annotation (stdout stderr : bytes) (code : Z) :
  output_parts w stdout stderr code
  = output_parts w stdout stderr 0
    ++ (if (code =? 0)%Z then [] else [annotation code]).
Proof.
  unfold output_parts, annotation. simpl.
  destruct (code =? 0)%Z; simpl; [rewrite app_nil_r|]; reflexivity.
Qed.

Lemma stream_parts (stdout stderr : bytes) (p : str) :
  In p (output_parts w stdout stderr 0) ->
  p = decode w stdout \/ p = lit "STDERR:" ++ [10%N] ++ decode w stderr.
Proof.
  unfold output_parts. simpl.
  destruct stdout, stderr; simpl;
    try destruct (truthy (strip (decode w _))); simpl; intuition.
Qed.

Lemma rendered_ends_with_annotation (stdout stderr : bytes) (code : Z) :
  code <> 0%Z -> suffix (annotation code) (rendered w stdout stderr code).
Proof.
  intros Hc. unfold rendered. rewrite output_parts_annotation.
  apply Z.eqb_neq in Hc. rewrite Hc.
  destruct (output_parts w stdout stderr 0) as [|p ps] eqn:E.
  - exists []. reflexivity.
  - unfold joined.
    destruct ((p :: ps) ++ [annotation code]) eqn:E2;
      [destruct ps; discriminate|]. rewrite <- E2.
    rewrite join_snoc by discriminate.
    exists (join [10%N] (p :: ps) ++ [10%N]).
    rewrite <- app_assoc. reflexivity.
Qed.

(** With exit code zero, ["Exit code:"] can only come from the process's
    own output. *)
Lemma no_annotation_on_zero (stdout stderr : bytes) :
  infix (lit "Exit code:") (truncated (rendered w stdout stderr 0)) ->
  infix (lit "Exit code:") (decode w stdout)
  \/ infix (lit "Exit code:") (decode w stderr).
Proof.
  assert (Hn : ~ In 10%N (lit "Exit code:"))
    by (apply notin_by_test; reflexivity).
  assert (Hne : lit "Exit code:" <> []) by discriminate.
  assert (HE : In 69%N (lit "Exit code:")) by (left; reflexivity).
  intros H.
  assert (Hr : infix (lit "Exit code:") (rendered w stdout stderr 0)).
  { unfold truncated in H.
    destruct (len (rendered w stdout stderr 0) >? max_len)%Z; [|exact H].
    change (slice_to max_len (rendered w stdout stderr 0) ++ [10%N]
            ++ lit "... (truncated, "
            ++ of_Z (len (rendered w stdout stderr 0) - max_len)
            ++ lit " more chars)")
      with (slice_to max_len (rendered w stdout stderr 0)
            ++ 10%N :: marker (len (rendered w stdout stderr 0) - max_len))
      in H.
    apply infix_across_newline in H; try assumption.
    destruct H as [H | H].
    - exact (infix_firstn _ _ _ H).
    - exfalso. exact (marker_has_no_E _ (infix_In _ _ _ HE H)). }
  unfold rendered, joined in Hr.
  destruct (output_parts w stdout stderr 0) as [|p ps] eqn:E.
  - apply contains_infix in Hr. vm_compute in Hr. discriminate.
  - apply infix_join_newline in Hr; try assumption.
    destruct Hr as [q [Hq Hin]]. rewrite <- E in Hq.
    apply stream_parts in Hq. destruct Hq as [-> | ->].
    + left. exact Hin.
    + change (lit "STDERR:" ++ [10%N] ++ decode w stderr)
        with (lit "STDERR:" ++ 10%N :: decode w stderr) in Hin.
      apply infix_across_newline in Hin; try assumption.
      destruct Hin as [Hin | Hin]; [|right; exact Hin].
      apply contains_infix in Hin. vm_compute in Hin. discriminate.
Qed.

End AnnotationFacts.

(** C8, amended. For a command that completes within the timeout,
    [execute] appends the line ["Exit code: <code>"] to the rendering
    exactly when the exit code is not zero. If the code is not zero, the
    rendering ends with that line, and so does the returned string
    whenever the rendering has at most 10,000 characters (beyond that the
    truncation may cut the line off). If the code is zero, nothing is
    appended: ["Exit code:"] occurs in the returned string only if it
    occurs in the decoded output of the process itself. *)
Theorem exit_code_annotation
    (w : World) (self : ExecTool) (command : str) (wd : option str)
    (process : Process) (stdout stderr : bytes) :
  _guard_command w self command (effective_cwd w self wd) = Val None ->
  main_spawn w self command wd = Val process ->
  communicate process (timeout self) = Val (stdout, stderr) ->
  exists result,
    outcome (execute w self command wd) = Val result
    /\ result = truncated (rendered w stdout stderr (returncode process))
    /\ output_parts w stdout stderr (returncode process)
       = output_parts w stdout stderr 0
         ++ (if (returncode process =? 0)%Z then []
             else [[10%N] ++ lit "Exit code: "
                   ++ of_Z (returncode process)])
    /\ (returncode process <> 0%Z ->
        suffix ([10%N] ++ lit "Exit code: " ++ of_Z (returncode process))
          (rendered w stdout stderr (returncode process))
        /\ ((len (rendered w stdout stderr (returncode process)) <= 10000)%Z ->
            suffix ([10%N] ++ lit "Exit code: " ++ of_Z (returncode process))
              result))
    /\ (returncode process = 0%Z ->
        infix (lit "Exit code:") result ->
        infix (lit "Exit code:") (decode w stdout)
        \/ infix (lit "Exit code:") (decode w stderr)).
Proof.
  intros Hg Hs Hc.
  rewrite (execute_completes _ _ _ _ _ _ _ Hg Hs Hc).
  eexists. split; [reflexivity|]. split; [reflexivity|].
  split; [apply output_parts_annotation|]. split.
  - intros Hnz.
    pose proof (rendered_ends_with_annotation w stdout stderr _ Hnz) as Hsuf.
    split; [exact Hsuf|]. intros Hshort.
    rewrite truncated_short by exact Hshort. exact Hsuf.
  - intros Hz. rewrite Hz. apply no_annotation_on_zero.
Qed.

Lemma exit_code_annotation_witness :
  exists result,
    outcome (execute Demo.bash_host Demo.tool (lit "false") None) = Val result
    /\ result = truncated (rendered Demo.bash_host [] [] 1)
    /\ output_parts Demo.bash_host [] [] 1
       = output_parts Demo.bash_host [] [] 0
         ++ (if (1 =? 0)%Z then []
             else [[10%N] ++ lit "Exit code: " ++ of_Z 1])
    /\ (1%Z <> 0%Z ->
        suffix ([10%N] ++ lit "Exit code: " ++ of_Z 1)
          (rendered Demo.bash_host [] [] 1)
        /\ ((len (rendered Demo.bash_host [] [] 1) <= 10000)%Z ->
            suffix ([10%N] ++ lit "Exit code: " ++ of_Z 1) result))
    /\ (1%Z = 0%Z ->
        infix (lit "Exit code:") result ->
        infix (lit "Exit code:") (decode Demo.bash_host [])
        \/ infix (lit "Exit code:") (decode Demo.bash_host [])).
Proof.
  apply (exit_code_annotation Demo.bash_host Demo.tool (lit "false") None
           (Demo.finishes [] [] 1) [] []);
    vm_compute; reflexivity.
Defined.

(** A run that exits with code 1 after printing 10,001 characters: the
    returned string has no exit-code line at all. *)
Lemma exit_code_annotation_counterexample :
  main_spawn Demo.bash_host Demo.tool (lit "yes | head -c 10001; false") None
  = Val (Demo.finishes (repeat Byte.x79 (Z.to_nat 10001)) [] 1)
  /\ returncode (Demo.finishes (repeat Byte.x79 (Z.to_nat 10001)) [] 1)
     <> 0%Z
  /\ exists result,
       outcome (execute Demo.bash_host Demo.tool
                  (lit "yes | head -c 10001; false") None)
       = Val result
       /\ ~ infix (lit "Exit code:") result.
Proof.
  split; [vm_compute; reflexivity|]. split; [discriminate|].
  eexists. split; [vm_compute; reflexivity|].
  apply contains_false_infix. vm_compute. reflexivity.
Qed.

(** When the code is zero the line can still be there, printed by the
    process. *)
Example exit_code_text_from_output :
  let w := {| which := Demo.bash_only;
              getcwd := lit "/home/user";
              environ := [];
              pathsep := lit ":";
              re_search := Re.re_search;
              str_lower := Demo.ascii_lower;
              resolve := Demo.lexical_resolve;
              decode := Demo.ascii_decode;
              create_subprocess_exec := fun _ _ _ _ =>
                Val (Demo.finishes (Demo.bytes_of "Exit code: 0") [] 0) |} in
  outcome (execute w (default_tool w) (lit "cat report.txt") None)
  = Val (lit "Exit code: 0").
Proof. vm_compute. reflexivity. Qed.

(* ===================================================================== *)
(** * Failures become text *)
(* ===================================================================== *)

(** The guard raises only when it resolves the working directory, which it
    does only under workspace restriction. *)
Lemma guard_raises_only_on_cwd
    (w : World) (self : ExecTool) (command cwd : str) (e : exn) :
  _guard_command w self command cwd = Exn e ->
  restrict_to_workspace self = true /\ resolve w cwd = Exn e.
Proof.
  rewrite guard_stages. intros H.
  destruct (matches_any w (deny_patterns self) (lowered w command));
    [discriminate|].
  destruct (negb (allowlisted w self command)); [discriminate|].
  destruct (restrict_to_workspace self); [|discriminate].
  destruct (contains (lit "..\") (strip command)
            || contains (lit "../") (strip command)); [discriminate|].
  destruct (resolve w cwd) as [c|e']; [discriminate|].
  inversion H; subst. split; reflexivity.
Qed.

(** On a host where the calls made before the [try] do not raise, the
    code of [Raising] is the code of [Shell]. *)
Section NoFaults.

Variable f : Raising.Faults.
Variable w : World.

Lemma raising_deny_loop (text : str) (patterns : list str) :
  (forall p, In p patterns -> Raising.search_raises f p = None) ->
  Raising.deny_loop f w text patterns = Val (deny_loop w text patterns).
Proof.
  induction patterns as [|p ps IH]; intros H; simpl; [reflexivity|].
  rewrite (H p (or_introl eq_refl)).
  destruct (re_search w p text); [reflexivity|].
  apply IH. intros q Hq. apply H. right. exact Hq.
Qed.

Lemma raising_any_search (text : str) (patterns : list str) :
  (forall p, In p patterns -> Raising.search_raises f p = None) ->
  Raising.any_search f w text patterns
  = Val (existsb (fun p => re_search w p text) patterns).
Proof.
  induction patterns as [|p ps IH]; intros H; simpl; [reflexivity|].
  rewrite (H p (or_introl eq_refl)).
  destruct (re_search w p text); [reflexivity|].
  apply IH. intros q Hq. apply H. right. exact Hq.
Qed.

Lemma raising_guard (self : ExecTool) (command cwd : str) :
  (forall p, In p (deny_patterns self ++ allow_patterns self) ->
             Raising.search_raises f p = None) ->
  Raising._guard_command f w self command cwd
  = _guard_command w self command cwd.
Proof.
  intros H. unfold Raising._guard_command, _guard_command.
  rewrite raising_deny_loop
    by (intros p Hp; apply H; apply in_or_app; left; exact Hp).
  destruct (deny_loop w (str_lower w (strip command)) (deny_patterns self));
    [reflexivity|].
  destruct (allow_patterns self) as [|a al] eqn:Ea; [reflexivity|].
  rewrite raising_any_search
    by (intros p Hp; apply H; apply in_or_app; right; exact Hp).
  destruct (existsb _ (a :: al)); reflexivity.
Qed.

Lemma raising_choose_cwd (self : ExecTool) (wd : option str) :
  (needs_getcwd self wd = true -> Raising.getcwd_raises f = None) ->
  Raising.choose_cwd f w self wd = Val (effective_cwd w self wd).
Proof.
  unfold Raising.choose_cwd, effective_cwd, str_or, needs_getcwd.
  destruct wd as [[|c d]|]; destruct (working_dir self) as [[|c' d']|];
    intros H; try reflexivity; rewrite (H eq_refl); reflexivity.
Qed.

Lemma raising_execute (self : ExecTool) (command : str) (wd : option str) :
  (needs_getcwd self wd = true -> Raising.getcwd_raises f = None) ->
  (forall p, In p (deny_patterns self ++ allow_patterns self) ->
             Raising.search_raises f p = None) ->
  Raising.execute f w self command wd = execute w self command wd.
Proof.
  intros Hcwd Hre. unfold Raising.execute, execute.
  rewrite (raising_choose_cwd _ _ Hcwd). unfold lift at 1. unfold bind at 1.
  rewrite (raising_guard _ _ _ Hre).
  destruct (lift (_guard_command w self command (effective_cwd w self wd)))
    as [t [g|e]]; simpl; [|reflexivity].
  destruct (match g with
            | Some (c :: msg) => ret (c :: msg)
            | _ => run_command w self command (effective_cwd w self wd)
            end) as [t' r].
  reflexivity.
Qed.

End NoFaults.

(** C2, amended. Suppose the calls made before the [try] do not raise:
    [os.getcwd()] when no directory is given or configured, [re.search] on
    the configured patterns, and the resolution of the working directory
    under workspace restriction. Then [execute] returns a string and does
    not raise. Every failure is returned as a string that starts with
    ["Error"]: a guard block starts with ["Error:"], and so does a timeout
    when the process could be killed; a spawn error and any other error of
    [communicate] read ["Error executing command: <detail>"]. A completed
    run returns its (possibly truncated) rendering: bytes that are not
    valid UTF-8 are decoded with replacement and are no failure, and a
    non-zero exit code shows as the final line ["Exit code: <code>"]
    provided the rendering has at most 10,000 characters. What happens
    when one of those calls raises is not part of this statement. *)
Theorem execute_returns_text
    (f : Raising.Faults) (w : World) (self : ExecTool) (command : str)
    (wd : option str) :
  (needs_getcwd self wd = true -> Raising.getcwd_raises f = None) ->
  (forall p, In p (deny_patterns self ++ allow_patterns self) ->
             Raising.search_raises f p = None) ->
  (restrict_to_workspace self = true ->
   exists c, resolve w (effective_cwd w self wd) = Val c) ->
  exists result,
    outcome (Raising.execute f w self command wd) = Val result
    /\ (forall msg,
           _guard_command w self command (effective_cwd w self wd)
           = Val (Some msg) ->
           result = msg /\ prefix (lit "Error:") result)
    /\ (forall e,
           _guard_command w self command (effective_cwd w self wd)
           = Val None ->
           main_spawn w self command wd = Exn e ->
           result = lit "Error executing command: " ++ exn_str e)
    /\ (forall process,
           _guard_command w self command (effective_cwd w self wd)
           = Val None ->
           main_spawn w self command wd = Val process ->
           communicate process (timeout self) = Exn TimeoutError ->
           prefix (lit "Error") result
           /\ (kill process = Val tt ->
               result = lit "Error: Command timed out after "
                        ++ of_Z (timeout self) ++ lit " seconds"))
    /\ (forall process msg,
           _guard_command w self command (effective_cwd w self wd)
           = Val None ->
           main_spawn w self command wd = Val process ->
           communicate process (timeout self) = Exn (Exception msg) ->
           result = lit "Error executing command: " ++ msg)
    /\ (forall process stdout stderr,
           _guard_command w self command (effective_cwd w self wd)
           = Val None ->
           main_spawn w self command wd = Val process ->
           communicate process (timeout self) = Val (stdout, stderr) ->
           result = truncated (rendered w stdout stderr (returncode process))
           /\ (returncode process <> 0%Z ->
               (len (rendered w stdout stderr (returncode process))
                <= 10000)%Z ->
               suffix (lit "Exit code: " ++ of_Z (returncode process))
                 result)).
Proof.
  intros Hgetcwd Hre Hcwd.
  rewrite (raising_execute f w self command wd Hgetcwd Hre).
  destruct (_guard_command w self command (effective_cwd w self wd))
    as [[msg|]|e] eqn:Hg.
  - (* blocked *)
    rewrite (execute_blocked _ _ _ _ _ Hg). exists msg.
    split; [reflexivity|]. repeat split; try discriminate.
    + inversion H; reflexivity.
    + inversion H; subst. apply (guard_message_shape _ _ _ _ _ Hg).
  - destruct (main_spawn w self command wd) as [process|e] eqn:Hs.
    + destruct (communicate process (timeout self))
        as [[stdout stderr]|[|m]] eqn:Hc.
      * (* completed *)
        rewrite (execute_completes _ _ _ _ _ _ _ Hg Hs Hc).
        eexists. split; [reflexivity|].
        split; [discriminate|]. split; [discriminate|].
        split; [intros p _ Hp He; inversion Hp; subst; congruence|].
        split; [intros p m _ Hp He; inversion Hp; subst; congruence|].
        intros p out err _ Hp Hce. inversion Hp; subst p.
        rewrite Hc in Hce. inversion Hce; subst out err.
        split; [reflexivity|]. intros Hnz Hshort.
        rewrite truncated_short by exact Hshort.
        destruct (rendered_ends_with_annotation w stdout stderr _ Hnz)
          as [t Ht].
        exists (t ++ [10%N]). rewrite Ht. unfold annotation.
        rewrite <- app_assoc. reflexivity.
      * (* timed out *)
        destruct (kill process) as [[]|ek] eqn:Hk.
        -- rewrite (execute_times_out _ _ _ _ _ Hg Hs Hc Hk).
           eexists. split; [reflexivity|].
           split; [discriminate|]. split; [discriminate|].
           split.
           ++ intros p _ Hp _. inversion Hp; subst p. split.
              ** apply startswith_prefix. vm_compute. reflexivity.
              ** intros _. reflexivity.
           ++ split; [intros p m _ Hp He; inversion Hp; subst; congruence|].
              intros p out err _ Hp Hce. inversion Hp; subst. congruence.
        -- rewrite (execute_kill_fails _ _ _ _ _ _ Hg Hs Hc Hk).
           eexists. split; [reflexivity|].
           split; [discriminate|]. split; [discriminate|].
           split.
           ++ intros p _ Hp _. inversion Hp; subst p. split.
              ** apply startswith_prefix. vm_compute. reflexivity.
              ** intros Hk'. congruence.
           ++ split; [intros p m _ Hp He; inversion Hp; subst; congruence|].
              intros p out err _ Hp Hce. inversion Hp; subst. congruence.
      * (* communicate failed *)
        rewrite (execute_communicate_fails _ _ _ _ _ _ Hg Hs Hc).
        eexists. split; [reflexivity|].
        split; [discriminate|]. split; [discriminate|].
        split; [intros p _ Hp He; inversion Hp; subst; congruence|].
        split.
        -- intros p m' _ Hp He. inversion Hp; subst p.
           rewrite Hc in He. inversion He; subst. reflexivity.
        -- intros p out err _ Hp Hce. inversion Hp; subst. congruence.
    + (* spawn failed *)
      rewrite (execute_spawn_fails _ _ _ _ _ Hg Hs).
      eexists. split; [reflexivity|].
      split; [discriminate|]. split.
      * intros e' _ He. inversion He; subst. reflexivity.
      * repeat split; discriminate.
  - (* the guard raised: excluded by the hypothesis *)
    apply guard_raises_only_on_cwd in Hg. destruct Hg as [Hr He].
    destruct (Hcwd Hr) as [c Hc]. congruence.
Qed.

Lemma execute_returns_text_witness :
  exists result,
    outcome (Raising.execute Raising.no_faults Demo.bash_host
               Demo.tool_restricted (lit "cat /etc/passwd")
               (Some (lit "/tmp/work")))
    = Val result.
Proof.
  destruct (execute_returns_text Raising.no_faults Demo.bash_host
              Demo.tool_restricted (lit "cat /etc/passwd")
              (Some (lit "/tmp/work")))
    as [result [H _]].
  - intros _. reflexivity.
  - intros p _. reflexivity.
  - intros _. eexists. vm_compute. reflexivity.
  - exists result. exact H.
Defined.

(** The calls before the [try], when they raise: a process whose directory
    has been removed and a call without directory; a deny list with a
    pattern that is no regular expression. *)
Example removed_directory_raises :
  Raising.execute
    {| Raising.getcwd_raises :=
         Some (Exception (lit "[Errno 2] No such file or directory"));
       Raising.search_raises := fun _ => None |}
    Demo.bash_host Demo.tool (lit "ls") None
  = ([], Exn (Exception (lit "[Errno 2] No such file or directory")))
  /\ outcome
       (Raising.execute
          {| Raising.getcwd_raises :=
               Some (Exception (lit "[Errno 2] No such file or directory"));
             Raising.search_raises := fun _ => None |}
          Demo.bash_host Demo.tool (lit "ls") (Some (lit "/srv")))
     = Val (lit "README.md" ++ [10%N]).
Proof. split; vm_compute; reflexivity. Qed.

Example malformed_pattern_raises :
  Raising.execute
    {| Raising.getcwd_raises := None;
       Raising.search_raises := fun p =>
         if PyStr.eqb p (lit "(")
         then Some (Exception
                      (lit "missing ), unterminated subpattern at position 0"))
         else None |}
    Demo.bash_host
    (__init__ Demo.bash_host 60 None (Some [lit "\bsudo\b"; lit "("]) None
       false [])
    (lit "ls") None
  = ([], Exn (Exception
                (lit "missing ), unterminated subpattern at position 0")))
  /\ Raising.execute
       {| Raising.getcwd_raises := None;
          Raising.search_raises := fun p =>
            if PyStr.eqb p (lit "(")
            then Some (Exception
                         (lit "missing ), unterminated subpattern at position 0"))
            else None |}
       Demo.bash_host
       (__init__ Demo.bash_host 60 None (Some [lit "\bsudo\b"; lit "("]) None
          false [])
       (lit "sudo ls") None
     = ([], Val msg_dangerous).
Proof. split; vm_compute; reflexivity. Qed.

(** Under workspace restriction a working directory that cannot be
    resolved makes [execute] raise: the guard runs before the [try]. *)
Example unresolvable_cwd_raises :
  execute Demo.bash_host Demo.tool_restricted (lit "ls") (Some [0%N])
  = ([], Exn (Exception (lit "embedded null byte"))).
Proof. vm_compute. reflexivity. Qed.

(** The shell cannot be started: the returned string is
    ["Error executing command: ..."], which does not start with
    ["Error:"]. A completed run with a non-zero exit code and more than
    10,000 characters of output: the returned string neither starts with
    ["Error:"] nor ends with an exit-code line. And a call that does not
    return a string at all. *)
Lemma execute_returns_text_counterexample :
  (exists e result,
      main_spawn Demo.broken_host Demo.tool (lit "ls") None = Exn e
      /\ outcome (execute Demo.broken_host Demo.tool (lit "ls") None)
         = Val result
      /\ ~ prefix (lit "Error:") result)
  /\ (exists result,
         outcome (execute Demo.bash_host Demo.tool
                    (lit "yes | head -c 10001; false") None)
         = Val result
         /\ returncode (Demo.finishes (repeat Byte.x79 (Z.to_nat 10001)) [] 1)
            = 1%Z
         /\ ~ prefix (lit "Error:") result
         /\ ~ suffix (lit "Exit code: 1") result)
  /\ forall result,
       outcome (execute Demo.bash_host Demo.tool_restricted (lit "ls")
                  (Some [0%N]))
       <> Val result.
Proof.
  split; [|split].
  - eexists. eexists. split; [vm_compute; reflexivity|].
    split; [vm_compute; reflexivity|].
    intros H. apply startswith_prefix in H. vm_compute in H. discriminate.
  - eexists. split; [vm_compute; reflexivity|].
    split; [reflexivity|]. split.
    + intros H. apply startswith_prefix in H. vm_compute in H. discriminate.
    + intros H.
      assert (Hi : infix (lit "Exit code: 1")
                     (repeat 121%N (Z.to_nat 10000) ++ [10%N]
                      ++ lit "... (truncated, 15 more chars)")).
      { destruct H as [t Ht]. exists t, []. rewrite app_nil_r.
        rewrite <- Ht. vm_compute. reflexivity. }
      apply contains_infix in Hi. vm_compute in Hi. discriminate.
  - intros result H. vm_compute in H. discriminate.
Qed.

(* ===================================================================== *)
(** * Workspace confinement *)
(* ===================================================================== *)

Section ExtractionFacts.

Lemma takewhile_dropwhile (f : N -> bool) (s : str) :
  s = takewhile f s ++ dropwhile f s
  /\ forallb f (takewhile f s) = true
  /\ stops f (dropwhile f s).
Proof.
  induction s as [|c s [IH1 [IH2 IH3]]]; simpl.
  - repeat split.
  - destruct (f c) eqn:E; simpl.
    + rewrite E. repeat split; [congruence | exact IH2 | exact IH3].
    + repeat split. exact E.
Qed.

Lemma match_win_sound (s m : str) :
  match_win s = Some m ->
  win_literal m /\ exists b, s = m ++ b /\ stops win_body b.
Proof.
  unfold match_win.
  destruct s as [|l [|c [|b t]]]; try discriminate.
  destruct (is_ascii_letter l && (c =? 58)%N && (b =? 92)%N) eqn:E;
    [|discriminate].
  apply andb_true_iff in E. destruct E as [E Hb].
  apply andb_true_iff in E. destruct E as [Hl Hc].
  apply N.eqb_eq in Hb, Hc. subst b c.
  destruct (takewhile_dropwhile win_body t) as [Ht [Hall Hstop]].
  destruct (takewhile win_body t) as [|x body] eqn:Etw; [discriminate|].
  intros H. inversion H; subst m. split.
  - exists l, (x :: body). repeat split; [exact Hl | discriminate | exact Hall].
  - exists (dropwhile win_body t). split; [|exact Hstop].
    simpl. rewrite Ht at 1. reflexivity.
Qed.

Lemma findall_win_sound (skip : nat) (s m : str) :
  In m (findall_win skip s) ->
  win_literal m /\ exists a b, s = a ++ m ++ b /\ stops win_body b.
Proof.
  revert skip. induction s as [|x s IH]; intros skip H; [destruct H|].
  assert (Hrec : forall k, In m (findall_win k s) ->
            win_literal m /\
            exists a b, x :: s = a ++ m ++ b /\ stops win_body b).
  { intros k Hk. destruct (IH k Hk) as [Hw [a [b [Hs Hb]]]].
    split; [exact Hw|]. exists (x :: a), b. rewrite Hs. auto. }
  cbn [findall_win] in H. destruct skip as [|k]; [|exact (Hrec k H)].
  destruct (match_win (x :: s)) as [m0|] eqn:E; [|exact (Hrec _ H)].
  destruct H as [<- | H]; [|exact (Hrec _ H)].
  destruct (match_win_sound _ _ E) as [Hw [b [Hs Hb]]].
  split; [exact Hw|]. exists [], b. auto.
Qed.

Lemma match_path_sound (s g : str) :
  match_path s = Some g ->
  posix_literal g /\ exists b, s = g ++ b /\ stops posix_body b.
Proof.
  unfold match_path. destruct s as [|c t]; [discriminate|].
  destruct (c =? 47)%N eqn:Hc; [|discriminate].
  apply N.eqb_eq in Hc. subst c.
  destruct (takewhile_dropwhile posix_body t) as [Ht [Hall Hstop]].
  destruct (takewhile posix_body t) as [|x body] eqn:Etw; [discriminate|].
  intros H. inversion H; subst g. split.
  - exists (x :: body). repeat split; [discriminate | exact Hall].
  - exists (dropwhile posix_body t). split; [|exact Hstop].
    simpl. rewrite Ht at 1. reflexivity.
Qed.

Lemma match_posix_sound (at_start : bool) (s g : str) (n : nat) :
  match_posix at_start s = Some (n, g) ->
  posix_literal g /\
  ((at_start = true /\ exists b, s = g ++ b /\ stops posix_body b)
   \/ exists c b, posix_lead c = true /\ s = c :: g ++ b
                  /\ stops posix_body b).
Proof.
  unfold match_posix.
  destruct (if at_start then match_path s else None) as [g0|] eqn:E.
  - intros H. inversion H; subst. destruct at_start; [|discriminate].
    destruct (match_path_sound _ _ E) as [Hp Hb].
    split; [exact Hp|]. left. split; [reflexivity | exact Hb].
  - destruct s as [|c t]; [discriminate|].
    destruct (posix_lead c) eqn:Hc; [|discriminate].
    destruct (match_path t) as [g0|] eqn:E2; [|discriminate].
    intros H. inversion H; subst.
    destruct (match_path_sound _ _ E2) as [Hp [b [Ht Hb]]].
    split; [exact Hp|]. right. exists c, b. rewrite Ht at 1. auto.
Qed.

Lemma findall_posix_sound (at_start : bool) (skip : nat) (s pre g : str) :
  (at_start = true -> pre = []) ->
  In g (findall_posix at_start skip s) ->
  posix_literal g /\
  exists a b, pre ++ s = a ++ g ++ b /\ leads a /\ stops posix_body b.
Proof.
  revert at_start skip pre.
  induction s as [|x s IH]; intros at_start skip pre Hpre H; [destruct H|].
  assert (Hrec : forall k, In g (findall_posix false k s) ->
            posix_literal g /\
            exists a b, pre ++ x :: s = a ++ g ++ b /\ leads a
                        /\ stops posix_body b).
  { intros k Hk.
    destruct (IH false k (pre ++ [x])) as [Hp [a [b [Hs Hab]]]];
      [discriminate | exact Hk |].
    split; [exact Hp|]. exists a, b. rewrite <- app_assoc in Hs. auto. }
  cbn [findall_posix] in H. destruct skip as [|k]; [|exact (Hrec k H)].
  destruct (match_posix at_start (x :: s)) as [[n g0]|] eqn:E;
    [|exact (Hrec _ H)].
  destruct H as [<- | H]; [|exact (Hrec _ H)].
  destruct (match_posix_sound _ _ _ _ E)
    as [Hp [[Hst [b [Hs Hb]]] | [c [b [Hc [Hs Hb]]]]]].
  - split; [exact Hp|]. exists [], b. rewrite (Hpre Hst). simpl.
    split; [exact Hs|]. split; [left; reflexivity | exact Hb].
  - split; [exact Hp|]. exists (pre ++ [c]), b. rewrite Hs.
    rewrite <- app_assoc. split; [reflexivity|].
    split; [right; exists pre, c; auto | exact Hb].
Qed.

(** Every extracted literal is an occurrence in the command of one of the
    two shapes. *)
Lemma extract_sound (command raw : str) :
  In raw (_extract_absolute_paths command) ->
  exists a b,
    command = a ++ raw ++ b /\
    ((win_literal raw /\ stops win_body b)
     \/ (posix_literal raw /\ leads a /\ stops posix_body b)).
Proof.
  unfold _extract_absolute_paths. intros H. apply in_app_or in H.
  destruct H as [H | H].
  - destruct (findall_win_sound _ _ _ H) as [Hw [a [b [Hs Hb]]]].
    exists a, b. auto.
  - destruct (findall_posix_sound true 0 command [] raw) as [Hp [a [b Hab]]];
      [reflexivity | exact H |].
    exists a, b. simpl in Hab. intuition.
Qed.

(** A text without blanks is its own [strip]. *)
Lemma dropwhile_head (f : N -> bool) (s : str) :
  forallb (fun c => negb (f c)) s = true -> dropwhile f s = s.
Proof.
  destruct s as [|c s]; simpl; [reflexivity|].
  intros H. apply andb_true_iff in H. destruct H as [H _].
  apply negb_true_iff in H. rewrite H. reflexivity.
Qed.

Lemma strip_no_blank (s : str) :
  forallb (fun c => negb (isspace c)) s = true -> strip s = s.
Proof.
  intros H. unfold strip, rstrip, lstrip.
  rewrite (dropwhile_head isspace s H).
  rewrite dropwhile_head; [apply rev_involutive|].
  apply forallb_forall. intros c Hc. apply in_rev in Hc.
  exact (proj1 (forallb_forall _ _) H c Hc).
Qed.

Lemma forallb_weaken (f g : N -> bool) (s : str) :
  (forall c, f c = true -> g c = true) ->
  forallb f s = true -> forallb g s = true.
Proof.
  intros Hfg H. apply forallb_forall. intros c Hc.
  apply Hfg. exact (proj1 (forallb_forall _ _) H c Hc).
Qed.

Lemma win_body_no_blank (c : N) :
  win_body c = true -> negb (isspace c) = true.
Proof.
  unfold win_body. destruct (isspace c); simpl; [discriminate | reflexivity].
Qed.

Lemma posix_body_no_blank (c : N) :
  posix_body c = true -> negb (isspace c) = true.
Proof.
  unfold posix_body. destruct (isspace c); simpl; [discriminate | reflexivity].
Qed.

(** Stripping an extracted literal (line 165) changes nothing. *)
Lemma strip_extracted (command raw : str) :
  In raw (_extract_absolute_paths command) -> strip raw = raw.
Proof.
  intros H. destruct (extract_sound _ _ H) as [a [b [_ Hshape]]].
  apply strip_no_blank.
  destruct Hshape as [[[l [body [-> [Hl [_ Hall]]]]] _]
                     | [[body [-> [_ Hall]]] _]].
  - simpl. rewrite (forallb_weaken _ _ _ win_body_no_blank Hall).
    unfold is_ascii_letter in Hl.
    assert (isspace l = false).
    { unfold isspace.
      apply orb_true_iff in Hl. destruct Hl as [Hl | Hl];
        apply andb_true_iff in Hl; destruct Hl as [H1 H2];
        apply N.leb_le in H1, H2;
        repeat (apply orb_false_iff; split);
        try (apply andb_false_iff);
        try (apply N.eqb_neq; lia);
        try (left; apply N.leb_gt; lia);
        try (right; apply N.leb_gt; lia). }
    rewrite H0. reflexivity.
  - simpl. rewrite (forallb_weaken _ _ _ posix_body_no_blank Hall).
    reflexivity.
Qed.

End ExtractionFacts.

Section ExtractionComplete.

Lemma takewhile_app_stop (f : N -> bool) (body b : str) :
  forallb f body = true -> stops f b -> takewhile f (body ++ b) = body.
Proof.
  intros Hall Hb. induction body as [|x body IH]; simpl in *.
  - destruct b as [|c b]; simpl; [reflexivity|]. simpl in Hb. rewrite Hb.
    reflexivity.
  - apply andb_true_iff in Hall. destruct Hall as [Hx Hall].
    rewrite Hx, (IH Hall). reflexivity.
Qed.

Lemma match_path_complete (g b : str) :
  posix_literal g -> stops posix_body b -> match_path (g ++ b) = Some g.
Proof.
  intros [body [-> [Hne Hall]]] Hb. unfold match_path. simpl.
  rewrite (takewhile_app_stop _ _ _ Hall Hb).
  destruct body; [congruence | reflexivity].
Qed.

Lemma posix_lead_not_slash (c : N) :
  posix_lead c = true -> (c =? 47)%N = false.
Proof.
  intros H. destruct (N.eqb_spec c 47) as [-> |]; [|reflexivity].
  vm_compute in H. discriminate.
Qed.

Lemma findall_posix_first (a : str) (c : N) (g b : str) (at_start : bool) :
  ~ In 47%N a -> posix_lead c = true ->
  posix_literal g -> stops posix_body b ->
  In g (findall_posix at_start 0 (a ++ c :: g ++ b)).
Proof.
  intros Ha Hc Hg Hb. pose proof (posix_lead_not_slash _ Hc) as Hc47.
  revert at_start. induction a as [|x a IH]; intros at_start.
  - simpl app. cbn [findall_posix].
    assert (Hm : match_posix at_start (c :: g ++ b)
                 = Some (S (List.length g), g)).
    { unfold match_posix.
      replace (if at_start then match_path (c :: g ++ b) else None)
        with (@None str)
        by (destruct at_start; [unfold match_path; rewrite Hc47|];
            reflexivity).
      rewrite Hc, (match_path_complete _ _ Hg Hb). reflexivity. }
    rewrite Hm. left. reflexivity.
  - assert (Ha' : ~ In 47%N a) by (intros H; apply Ha; right; exact H).
    assert (Hx : (x =? 47)%N = false)
      by (apply N.eqb_neq; intros ->; apply Ha; left; reflexivity).
    change ((x :: a) ++ c :: g ++ b) with (x :: (a ++ c :: g ++ b)).
    cbn [findall_posix].
    assert (Hm : match_posix at_start (x :: (a ++ c :: g ++ b)) = None).
    { unfold match_posix.
      replace (if at_start then match_path (x :: a ++ c :: g ++ b) else None)
        with (@None str)
        by (destruct at_start; [unfold match_path; rewrite Hx|];
            reflexivity).
      destruct (posix_lead x); [|reflexivity].
      unfold match_path. destruct a as [|y a]; simpl.
      - rewrite Hc47. reflexivity.
      - assert (Hy : (y =? 47)%N = false)
          by (apply N.eqb_neq; intros ->; apply Ha'; left; reflexivity).
        rewrite Hy. reflexivity. }
    rewrite Hm. apply IH. exact Ha'.
Qed.

Lemma match_win_complete (g b : str) :
  win_literal g -> stops win_body b -> match_win (g ++ b) = Some g.
Proof.
  intros [l [body [-> [Hl [Hne Hall]]]]] Hb. unfold match_win. simpl.
  rewrite Hl. simpl. rewrite (takewhile_app_stop _ _ _ Hall Hb).
  destruct body; [congruence | reflexivity].
Qed.

Lemma letter_not_colon (l : N) :
  is_ascii_letter l = true -> (l =? 58)%N = false.
Proof.
  intros H. destruct (N.eqb_spec l 58) as [-> |]; [|reflexivity].
  vm_compute in H. discriminate.
Qed.

Lemma findall_win_first (a g b : str) :
  ~ In 58%N a -> win_literal g -> stops win_body b ->
  In g (findall_win 0 (a ++ g ++ b)).
Proof.
  intros Ha Hg Hb. induction a as [|x a IH].
  - simpl app. pose proof (match_win_complete _ _ Hg Hb) as Hm.
    destruct Hg as [l [body [-> _]]]. simpl app in *.
    cbn [findall_win]. rewrite Hm. left. reflexivity.
  - assert (Ha' : ~ In 58%N a) by (intros H; apply Ha; right; exact H).
    change ((x :: a) ++ g ++ b) with (x :: (a ++ g ++ b)).
    cbn [findall_win].
    assert (Hm : match_win (x :: (a ++ g ++ b)) = None).
    { unfold match_win. destruct a as [|y a].
      - destruct Hg as [l [body [-> [Hl _]]]]. simpl.
        rewrite (letter_not_colon _ Hl), andb_false_r. reflexivity.
      - simpl. destruct (a ++ g ++ b); [reflexivity|].
        assert (Hy : (y =? 58)%N = false)
          by (apply N.eqb_neq; intros ->; apply Ha'; left; reflexivity).
        rewrite Hy, andb_false_r. reflexivity. }
    rewrite Hm. apply IH. exact Ha'.
Qed.

Lemma extract_first_posix (a g b : str) :
  ~ In 47%N a -> leads a -> posix_literal g -> stops posix_body b ->
  In g (_extract_absolute_paths (a ++ g ++ b)).
Proof.
  intros Ha Hl Hg Hb. unfold _extract_absolute_paths.
  apply in_or_app. right. destruct Hl as [-> | [a' [c [-> Hc]]]].
  - simpl app. pose proof (match_path_complete _ _ Hg Hb) as Hm.
    destruct Hg as [body [-> _]]. simpl app in *.
    cbn [findall_posix]. unfold match_posix. rewrite Hm.
    left. reflexivity.
  - rewrite <- app_assoc. simpl app.
    apply findall_posix_first; try assumption.
    intros H. apply Ha. apply in_or_app. left. exact H.
Qed.

End ExtractionComplete.

Section ExtractionEvery.







Lemma match_win_length (s m : str) :
  match_win s = Some m -> (1 <= List.length m)%nat.
Proof.
  intros H. destruct (match_win_sound _ _ H) as [[l [body [-> _]]] _].
  simpl. lia.
Qed.







End ExtractionEvery.




(** The spec's fourth scenario, and paths at and below the working
    directory. *)
Example scenario_cat_passwd :
  execute Demo.bash_host Demo.tool_restricted (lit "cat /etc/passwd")
    (Some (lit "/tmp/work"))
  = ([], Val msg_outside).
Proof. vm_compute. reflexivity. Qed.

Example inside_workspace_allowed :
  _guard_command Demo.bash_host Demo.tool_restricted
    (lit "ls /tmp/work /tmp/work/src/main.py") (lit "/tmp/work")
  = Val None.
Proof. vm_compute. reflexivity. Qed.

(** Every path of a command is looked at, not only the first. *)
Example later_path_blocks :
  _extract_absolute_paths (lit "cat /tmp/work/a /etc/passwd")
  = [lit "/tmp/work/a"; lit "/etc/passwd"]
  /\ _guard_command Demo.bash_host Demo.tool_restricted
       (lit "cat /tmp/work/a /etc/passwd") (lit "/tmp/work")
     = Val (Some msg_outside).
Proof. split; vm_compute; reflexivity. Qed.

(** Matches do not overlap: a pipe or a drive letter inside a literal does
    not start a new one. *)
Example overlapping_occurrences :
  _extract_absolute_paths (lit "ls /a|/b") = [lit "/a|/b"]
  /\ _extract_absolute_paths (lit "copy C:\a\D:\b") = [lit "C:\a\D:\b"].
Proof. split; vm_compute; reflexivity. Qed.

(** What the two patterns see. A path after a pipe or after [>] is
    extracted; a path after [<], after a quote or after a semicolon is
    not; a Windows path stops at a semicolon. *)
Example extract_after_pipe_and_redirect :
  _extract_absolute_paths (lit "ls|/bin/cat>/tmp/x")
  = [lit "/bin/cat"; lit "/tmp/x"].
Proof. vm_compute. reflexivity. Qed.

Example extract_not_after_input_redirect :
  _extract_absolute_paths (lit "cat </etc/passwd") = []
  /\ _guard_command Demo.bash_host Demo.tool_restricted
       (lit "cat </etc/passwd") (lit "/tmp/work")
     = Val None.
Proof. split; vm_compute; reflexivity. Qed.

Example extract_not_after_semicolon :
  _extract_absolute_paths (lit "cd src;/bin/ls") = [].
Proof. vm_compute. reflexivity. Qed.

Example extract_windows :
  _extract_absolute_paths (lit "type C:\Users\me\a.txt;del D:\tmp|more")
  = [lit "C:\Users\me\a.txt"; lit "D:\tmp"].
Proof. vm_compute. reflexivity. Qed.

(* ===================================================================== *)
(** * Shell detection *)
(* ===================================================================== *)

Lemma first_which_found (w : World) (before after : list str) (n p : str) :
  (forall m, In m before -> found w m = false) ->
  which w n = Some p -> truthy p = true ->
  first_which w (before ++ n :: after) = p.
Proof.
  intros Hb Hn Hp. induction before as [|m before IH]; simpl.
  - rewrite Hn, Hp. reflexivity.
  - assert (Hm : found w m = false) by (apply Hb; left; reflexivity).
    unfold found in Hm.
    destruct (which w m) as [q|]; [rewrite Hm|];
      apply IH; intros m' Hin; apply Hb; right; exact Hin.
Qed.

Lemma first_which_none (w : World) (names : list str) :
  (forall m, In m names -> found w m = false) ->
  first_which w names = lit "/bin/sh".
Proof.
  induction names as [|m names IH]; intros H; simpl; [reflexivity|].
  assert (Hm : found w m = false) by (apply H; left; reflexivity).
  unfold found in Hm.
  destruct (which w m) as [q|]; [rewrite Hm|];
    apply IH; intros m' Hin; apply H; right; exact Hin.
Qed.

Lemma first_which_truthy (w : World) (names : list str) :
  truthy (first_which w names) = true.
Proof.
  induction names as [|m names IH]; simpl; [reflexivity|].
  destruct (which w m) as [q|]; [|exact IH].
  destruct (truthy q) eqn:E; [exact E | exact IH].
Qed.

(** X1. [_detect_shell] returns the path [which] gives for the first of
    fish, bash, zsh, sh that it finds (a name for which [which] gives
    nothing, or an empty path, is passed over); if none is found it
    returns ["/bin/sh"] without looking for it. The result is never
    empty. *)
Theorem detect_shell_first_found (w : World) :
  truthy (_detect_shell w) = true
  /\ (forall before n after p,
         shell_names = before ++ n :: after ->
         (forall m, In m before -> found w m = false) ->
         which w n = Some p -> truthy p = true ->
         _detect_shell w = p)
  /\ ((forall n, In n shell_names -> found w n = false) ->
      _detect_shell w = lit "/bin/sh").
Proof.
  unfold _detect_shell. fold shell_names.
  split; [apply first_which_truthy|]. split.
  - intros before n after p -> Hb Hn Hp.
    exact (first_which_found w before after n p Hb Hn Hp).
  - apply first_which_none.
Qed.

Example detect_shell_on_hosts :
  _detect_shell Demo.fish_host = lit "/usr/bin/fish"
  /\ _detect_shell Demo.bash_host = lit "/bin/bash".
Proof. split; vm_compute; reflexivity. Qed.



(* ===================================================================== *)
(** * Where and how the command is started *)
(* ===================================================================== *)

Lemma effective_cwd_selected (w : World) (self : ExecTool) (wd : option str) :
  effective_cwd w self wd = selected_directory w self wd.
Proof.
  unfold effective_cwd, selected_directory, str_or.
  destruct wd as [[|c d]|]; destruct (working_dir self) as [[|c' d']|];
    reflexivity.
Qed.

(** X3. When the guard lets a command through, the first thing [execute]
    does is start the shell with the two arguments [-c] and the command
    exactly as given (not trimmed, not lower-cased), with both output
    streams piped, in the directory selected for the call: the call's own
    [working_dir] if it is a non-empty string, else the configured one if
    non-empty, else the current directory. An empty string counts as no
    directory. The guard is evaluated against that same directory. *)
Theorem command_started_verbatim_in_selected_directory
    (w : World) (self : ExecTool) (command : str) (wd : option str) :
  _guard_command w self command (selected_directory w self wd) = Val None ->
  exists rest,
    trace (execute w self command wd)
    = Spawn MainCommand (shell self) [lit "-c"; command]
        (Some (selected_directory w self wd)) (Some (child_env w self))
        PIPE PIPE
      :: rest.
Proof.
  rewrite <- effective_cwd_selected. intros Hg.
  change (Spawn MainCommand (shell self) [lit "-c"; command]
            (Some (effective_cwd w self wd)) (Some (child_env w self))
            PIPE PIPE)
    with (main_spawn_event w self command wd).
  destruct (main_spawn w self command wd) as [process|e] eqn:Hs.
  - destruct (communicate process (timeout self))
      as [[stdout stderr]|[|m]] eqn:Hc.
    + rewrite (execute_completes _ _ _ _ _ _ _ Hg Hs Hc).
      eexists. reflexivity.
    + destruct (kill process) as [[]|e'] eqn:Hk.
      * rewrite (execute_times_out _ _ _ _ _ Hg Hs Hc Hk).
        eexists. reflexivity.
      * rewrite (execute_kill_fails _ _ _ _ _ _ Hg Hs Hc Hk).
        eexists. reflexivity.
    + rewrite (execute_communicate_fails _ _ _ _ _ _ Hg Hs Hc).
      eexists. reflexivity.
  - rewrite (execute_spawn_fails _ _ _ _ _ Hg Hs). eexists. reflexivity.
Qed.

Lemma command_started_verbatim_in_selected_directory_witness :
  exists rest,
    trace (execute Demo.bash_host Demo.tool (lit "  LS  ") (Some []))
    = Spawn MainCommand (lit "/bin/bash") [lit "-c"; lit "  LS  "]
        (Some (lit "/home/user"))
        (Some [(lit "PATH", lit "/usr/bin:/bin")]) PIPE PIPE
      :: rest.
Proof.
  apply (command_started_verbatim_in_selected_directory Demo.bash_host
           Demo.tool (lit "  LS  ") (Some [])).
  vm_compute. reflexivity.
Defined.

Lemma env_get_set_same (env : environment) (key value default : str) :
  env_get (env_set env key value) key default = value.
Proof.
  induction env as [|[k v] env IH]; simpl.
  - rewrite eqb_refl. reflexivity.
  - destruct (PyStr.eqb k key) eqn:E; simpl; rewrite E; [reflexivity|exact IH].
Qed.

Lemma env_get_set_other (env : environment) (key value other default : str) :
  other <> key ->
  env_get (env_set env key value) other default = env_get env other default.
Proof.
  intros Hne. induction env as [|[k v] env IH]; simpl.
  - destruct (PyStr.eqb key other) eqn:E; [|reflexivity].
    apply eqb_eq in E. congruence.
  - destruct (PyStr.eqb k key) eqn:E; simpl.
    + destruct (PyStr.eqb k other) eqn:E2; [|reflexivity].
      apply eqb_eq in E, E2. congruence.
    + destruct (PyStr.eqb k other); [reflexivity | exact IH].
Qed.

(** X4. The environment of the child process. With an empty
    [path_append] it is the parent's environment, unchanged. Otherwise its
    [PATH] is the parent's [PATH] (the empty string if the parent has
    none, so that the new value then starts with the separator), followed
    by the path separator and [path_append]; every other variable is as in
    the parent. *)
Theorem child_path_is_appended (w : World) (self : ExecTool) :
  (path_append self = [] -> child_env w self = environ w)
  /\ (path_append self <> [] ->
      (forall default,
          env_get (child_env w self) (lit "PATH") default
          = env_get (environ w) (lit "PATH") [] ++ pathsep w
            ++ path_append self)
      /\ (forall name default,
             name <> lit "PATH" ->
             env_get (child_env w self) name default
             = env_get (environ w) name default)).
Proof.
  unfold child_env. split.
  - intros ->. reflexivity.
  - intros Hne. destruct (path_append self) as [|c pa] eqn:E; [congruence|].
    cbn [truthy]. split.
    + intros default. apply env_get_set_same.
    + intros name default Hn. apply env_get_set_other. exact Hn.
Qed.

Example child_path_examples :
  env_get (child_env Demo.bash_host
             (__init__ Demo.bash_host 60 None None None false
                (lit "/opt/tools/bin")))
    (lit "PATH") []
  = lit "/usr/bin:/bin:/opt/tools/bin"
  /\ env_get (child_env Demo.broken_host
                (__init__ Demo.broken_host 60 None None None false []))
       (lit "PATH") []
     = lit "/usr/bin:/bin".
Proof. split; vm_compute; reflexivity. Qed.

(* ===================================================================== *)
(** * More on the guard *)
(* ===================================================================== *)

Section StripFacts.

Lemma dropwhile_app (f : N -> bool) (s t : str) :
  dropwhile f (s ++ t)
  = if forallb f s then dropwhile f t else dropwhile f s ++ t.
Proof.
  induction s as [|c s IH]; simpl; [reflexivity|].
  destruct (f c); simpl; [exact IH | reflexivity].
Qed.

Lemma forallb_rev (f : N -> bool) (s : str) :
  forallb f (rev s) = forallb f s.
Proof.
  induction s as [|c s IH]; simpl; [reflexivity|].
  rewrite forallb_app, IH. simpl. rewrite andb_true_r. apply andb_comm.
Qed.

Lemma dropwhile_all (f : N -> bool) (s : str) :
  forallb f s = true -> dropwhile f s = [].
Proof.
  induction s as [|c s IH]; simpl; [reflexivity|].
  destruct (f c); simpl; [exact IH | discriminate].
Qed.

Lemma lstrip_pad (a s : str) : blank a = true -> lstrip (a ++ s) = lstrip s.
Proof.
  intros Ha. unfold lstrip, blank in *. rewrite dropwhile_app, Ha.
  reflexivity.
Qed.

Lemma rstrip_pad (s b : str) : blank b = true -> rstrip (s ++ b) = rstrip s.
Proof.
  intros Hb. unfold rstrip. rewrite rev_app_distr.
  assert (Hr : blank (rev b) = true)
    by (unfold blank in *; rewrite forallb_rev; exact Hb).
  fold (lstrip (rev b ++ rev s)). rewrite (lstrip_pad _ _ Hr).
  reflexivity.
Qed.

Lemma lstrip_app_blank (s b : str) :
  blank b = true ->
  lstrip (s ++ b) = if blank s then [] else lstrip s ++ b.
Proof.
  intros Hb. unfold lstrip, blank in *. rewrite dropwhile_app.
  destruct (forallb isspace s); [apply dropwhile_all; exact Hb | reflexivity].
Qed.

(** Blanks around a text do not change its [strip]. *)
Lemma strip_pad (a s b : str) :
  blank a = true -> blank b = true -> strip (a ++ s ++ b) = strip s.
Proof.
  intros Ha Hb. unfold strip.
  rewrite (lstrip_pad _ _ Ha), (lstrip_app_blank _ _ Hb).
  destruct (blank s) eqn:Hs.
  - unfold lstrip, blank in *. rewrite (dropwhile_all _ _ Hs). reflexivity.
  - apply rstrip_pad. exact Hb.
Qed.

End StripFacts.

(** X5. The guard looks at the trimmed command only: blanks (any
    whitespace) put before and after a command do not change its
    decision, for any configuration and working directory. *)
Theorem guard_ignores_surrounding_blanks
    (w : World) (self : ExecTool) (command cwd before after : str) :
  blank before = true -> blank after = true ->
  _guard_command w self (before ++ command ++ after) cwd
  = _guard_command w self command cwd.
Proof.
  intros Ha Hb. unfold _guard_command.
  rewrite (strip_pad _ _ _ Ha Hb). reflexivity.
Qed.

Lemma guard_ignores_surrounding_blanks_witness :
  _guard_command Demo.bash_host Demo.tool
    ([9%N; 32%N] ++ lit "rm -rf /" ++ [10%N]) (lit "/srv")
  = _guard_command Demo.bash_host Demo.tool (lit "rm -rf /") (lit "/srv").
Proof.
  apply (guard_ignores_surrounding_blanks Demo.bash_host Demo.tool
           (lit "rm -rf /") (lit "/srv") [9%N; 32%N] [10%N]);
    reflexivity.
Defined.

(** X6. Which commands the guard lets through. The guard answers [None]
    exactly when no deny pattern is found in the trimmed, lower-cased
    command, the allow-list is empty or one of its patterns is found, and,
    under workspace restriction, the command has no traversal token, the
    working directory resolves, and every extracted path literal that
    resolves to an absolute path resolves to the working directory or
    below it. *)
Theorem guard_allows_iff
    (w : World) (self : ExecTool) (command cwd : str) :
  _guard_command w self command cwd = Val None
  <->
  matches_any w (deny_patterns self) (lowered w command) = false
  /\ allowlisted w self command = true
  /\ (restrict_to_workspace self = true ->
      ~ has_traversal command
      /\ exists cwd_path,
           resolve w cwd = Val cwd_path
           /\ forall raw p,
                In raw (_extract_absolute_paths (strip command)) ->
                resolve w (strip raw) = Val p ->
                is_absolute p = true ->
                p = cwd_path \/ descendant cwd_path p).
Proof.
  rewrite guard_stages.
  destruct (matches_any w (deny_patterns self) (lowered w command));
    [split; [discriminate | intros [H _]; discriminate]|].
  destruct (allowlisted w self command); simpl;
    [|split; [discriminate | intros [_ [H _]]; discriminate]].
  destruct (restrict_to_workspace self);
    [|split; [intros _; repeat split; discriminate | reflexivity]].
  destruct (contains (lit "..\") (strip command)
            || contains (lit "../") (strip command)) eqn:Etr.
  { split; [discriminate|]. intros [_ [_ H]].
    destruct (H eq_refl) as [Hnt _]. exfalso. apply Hnt.
    apply has_traversal_strip. unfold has_traversal.
    apply orb_true_iff in Etr.
    destruct Etr as [E | E]; apply contains_infix in E; auto. }
  apply orb_false_iff in Etr. destruct Etr as [E1 E2].
  assert (Hnt : ~ has_traversal command).
  { rewrite has_traversal_strip. unfold has_traversal.
    apply contains_false_infix in E1, E2. tauto. }
  destruct (resolve w cwd) as [c|e].
  - destruct (path_loop_cases w c (_extract_absolute_paths (strip command)))
      as [[Hp Hex] | [Hp Hno]]; rewrite Hp.
    + split; [discriminate|]. intros [_ [_ H]].
      destruct (H eq_refl) as [_ [c' [Hc Hall]]].
      inversion Hc; subst c'.
      destruct Hex as [raw [p [Hin [Hr [Ha [Hne Hnd]]]]]].
      destruct (Hall raw p Hin Hr Ha); contradiction.
    + split; [|reflexivity]. intros _.
      split; [reflexivity|]. split; [reflexivity|]. intros _.
      split; [exact Hnt|]. exists c. split; [reflexivity|].
      intros raw p Hin Hr Ha.
      destruct (path_eqb p c) eqn:Eeq; [left; apply path_eqb_eq; exact Eeq|].
      destruct (path_in c (parents p)) eqn:Ein;
        [right; apply path_in_parents; exact Ein|].
      exfalso. apply Hno. exists raw, p.
      repeat split; try assumption.
      * intros Heq. apply path_eqb_eq in Heq. congruence.
      * intros Hd. apply path_in_parents in Hd. congruence.
  - split; [discriminate|]. intros [_ [_ H]].
    destruct (H eq_refl) as [_ [c [Hc _]]]. discriminate.
Qed.

Section NoSlash.

Lemma findall_posix_no_slash (at_start : bool) (skip : nat) (s : str) :
  ~ In 47%N s -> findall_posix at_start skip s = [].
Proof.
  revert at_start skip. induction s as [|x s IH]; intros at_start skip H;
    [reflexivity|].
  assert (Hs : ~ In 47%N s) by (intros Hin; apply H; right; exact Hin).
  assert (Hx : (x =? 47)%N = false)
    by (apply N.eqb_neq; intros ->; apply H; left; reflexivity).
  cbn [findall_posix]. destruct skip as [|k]; [|apply IH; exact Hs].
  assert (Hm : match_posix at_start (x :: s) = None).
  { unfold match_posix, match_path. rewrite Hx.
    destruct at_start; destruct (posix_lead x); try reflexivity;
      destruct s as [|y s']; try reflexivity;
      assert (Hy : (y =? 47)%N = false)
        by (apply N.eqb_neq; intros ->; apply Hs; left; reflexivity);
      rewrite Hy; reflexivity. }
  rewrite Hm. apply IH. exact Hs.
Qed.

Lemma findall_win_no_backslash (skip : nat) (s : str) :
  ~ In 92%N s -> findall_win skip s = [].
Proof.
  revert skip. induction s as [|x s IH]; intros skip H; [reflexivity|].
  assert (Hs : ~ In 92%N s) by (intros Hin; apply H; right; exact Hin).
  cbn [findall_win]. destruct skip as [|k]; [|apply IH; exact Hs].
  assert (Hm : match_win (x :: s) = None).
  { unfold match_win. destruct s as [|c [|b t]]; try reflexivity.
    assert (Hb : (b =? 92)%N = false)
      by (apply N.eqb_neq; intros ->; apply Hs; right; left; reflexivity).
    rewrite Hb, andb_false_r. reflexivity. }
  rewrite Hm. apply IH. exact Hs.
Qed.

Lemma strip_In (c : N) (s : str) : In c (strip s) -> In c s.
Proof.
  intros H. destruct (strip_infix s) as [a [b Hs]]. rewrite Hs.
  apply in_or_app; right. apply in_or_app; left. exact H.
Qed.

End NoSlash.

(** X7. Workspace restriction only reacts to slashes and backslashes: a
    command that contains neither (and is not deny- or allowlist-blocked)
    is let through whenever the working directory resolves, whatever file
    names it mentions. *)
Theorem slashless_command_passes_confinement
    (w : World) (self : ExecTool) (command cwd : str) (cwd_path : Path) :
  restrict_to_workspace self = true ->
  matches_any w (deny_patterns self) (lowered w command) = false ->
  allowlisted w self command = true ->
  resolve w cwd = Val cwd_path ->
  ~ In 47%N command -> ~ In 92%N command ->
  _guard_command w self command cwd = Val None.
Proof.
  intros Hr Hdeny Hal Hcwd Hs Hb.
  assert (Hs' : ~ In 47%N (strip command))
    by (intros H; apply Hs; exact (strip_In _ _ H)).
  assert (Hb' : ~ In 92%N (strip command))
    by (intros H; apply Hb; exact (strip_In _ _ H)).
  rewrite guard_stages, Hdeny, Hal, Hr. simpl.
  destruct (contains (lit "..\") (strip command)) eqn:E1.
  { exfalso. apply Hb'. apply contains_infix in E1.
    assert (H92 : In 92%N (lit "..\")) by (simpl; tauto).
    exact (infix_In _ _ _ H92 E1). }
  destruct (contains (lit "../") (strip command)) eqn:E2.
  { exfalso. apply Hs'. apply contains_infix in E2.
    assert (H47 : In 47%N (lit "../")) by (simpl; tauto).
    exact (infix_In _ _ _ H47 E2). }
  simpl. rewrite Hcwd. unfold _extract_absolute_paths.
  rewrite (findall_win_no_backslash _ _ Hb').
  rewrite (findall_posix_no_slash _ _ _ Hs'). reflexivity.
Qed.

Lemma slashless_command_passes_confinement_witness :
  _guard_command Demo.bash_host Demo.tool_restricted
    (lit "cat notes.txt | wc -l") (lit "/tmp/work")
  = Val None.
Proof.
  apply (slashless_command_passes_confinement Demo.bash_host
           Demo.tool_restricted (lit "cat notes.txt | wc -l")
           (lit "/tmp/work") (mkPath (lit "/") [lit "tmp"; lit "work"]));
    try (vm_compute; reflexivity);
    apply notin_by_test; vm_compute; reflexivity.
Defined.

(* ===================================================================== *)
(** * What the path patterns are sure to find *)
(* ===================================================================== *)


(** X8. The first POSIX path of a text is always extracted. If the text
    reads [a ++ g ++ b] where [a] contains no slash and is empty or ends in
    whitespace, a pipe or [>], [g] is a slash followed by one or more
    characters other than whitespace, quotes and [>], and [b] is empty or
    starts with one of those stopping characters, then [g] is among the
    extracted paths. *)
Theorem first_posix_path_is_extracted (a g b : str) :
  ~ In 47%N a -> leads a -> posix_literal g -> stops posix_body b ->
  In g (_extract_absolute_paths (a ++ g ++ b)).
Proof. apply extract_first_posix. Qed.

Lemma first_posix_path_is_extracted_witness :
  In (lit "/etc/passwd")
    (_extract_absolute_paths (lit "cat " ++ lit "/etc/passwd" ++ lit " | wc")).
Proof.
  apply (first_posix_path_is_extracted (lit "cat ") (lit "/etc/passwd")
           (lit " | wc")).
  - apply notin_by_test. reflexivity.
  - right. exists (lit "cat"), 32%N. split; reflexivity.
  - exists (lit "etc/passwd").
    split; [reflexivity | split; [discriminate | reflexivity]].
  - reflexivity.
Defined.

(** X9. The first Windows drive path of a text is always extracted. If the
    text reads [a ++ g ++ b] where [a] contains no colon, [g] is an ASCII
    letter, a colon, a backslash and one or more characters other than
    whitespace, quotes, pipe, [>], [<] and semicolon, and [b] is empty or
    starts with one of those stopping characters, then [g] is among the
    extracted paths, whatever stands right before it. *)
Theorem first_drive_path_is_extracted (a g b : str) :
  ~ In 58%N a -> win_literal g -> stops win_body b ->
  In g (_extract_absolute_paths (a ++ g ++ b)).
Proof.
  intros Ha Hg Hb. unfold _extract_absolute_paths.
  apply in_or_app. left. apply findall_win_first; assumption.
Qed.

Lemma first_drive_path_is_extracted_witness :
  In (lit "C:\Windows\system32")
    (_extract_absolute_paths
       (lit "dir=" ++ lit "C:\Windows\system32" ++ lit ";echo ok")).
Proof.
  apply (first_drive_path_is_extracted (lit "dir=") (lit "C:\Windows\system32")
           (lit ";echo ok")).
  - apply notin_by_test. reflexivity.
  - exists 67%N, (lit "Windows\system32").
    split; [reflexivity|]. split; [reflexivity|].
    split; [discriminate | reflexivity].
  - reflexivity.
Defined.

(* ===================================================================== *)
(** * More on rendering and truncation *)
(* ===================================================================== *)

Lemma len_app (a b : str) : len (a ++ b) = (len a + len b)%Z.
Proof. unfold len. rewrite length_app. lia. Qed.

Lemma of_Z_not_empty (z : Z) : (1 <= len (of_Z z))%Z.
Proof.
  unfold of_Z, NilZero.string_of_int, NilZero.string_of_uint.
  destruct (Z.to_int z) as [u|u]; destruct u; unfold len, lit; simpl; lia.
Qed.

(** X10. The length of a truncated result. A rendering of more than 10,000
    characters comes back as 10,000 characters, a line break, and a marker
    of 28 characters plus the digits of the count, so a rendering of 10,001
    to 10,029 characters comes back longer than it was. *)
Theorem truncation_length (r : str) :
  (len r > 10000)%Z ->
  len (truncated r) = (10029 + len (of_Z (len r - 10000)))%Z
  /\ ((len r < 10030)%Z -> (len (truncated r) > len r)%Z).
Proof.
  intros Hlong.
  assert (Hlen : len (truncated r)
                 = (10029 + len (of_Z (len r - 10000)))%Z).
  { rewrite truncated_long by exact Hlong. unfold marker.
    rewrite !len_app, len_slice_to by (unfold max_len; lia).
    change (len [10%N]) with 1%Z.
    change (len (lit "... (truncated, ")) with 16%Z.
    change (len (lit " more chars)")) with 12%Z.
    unfold max_len. lia. }
  split; [exact Hlen|]. intros Hshort.
  pose proof (of_Z_not_empty (len r - 10000)). lia.
Qed.

Lemma truncation_length_witness :
  len (truncated (repeat 121%N (Z.to_nat 10001)))
  = (10029 + len (of_Z (len (repeat 121%N (Z.to_nat 10001)) - 10000)))%Z
  /\ ((len (repeat 121%N (Z.to_nat 10001)) < 10030)%Z ->
      (len (truncated (repeat 121%N (Z.to_nat 10001)))
       > len (repeat 121%N (Z.to_nat 10001)))%Z).
Proof.
  apply (truncation_length (repeat 121%N (Z.to_nat 10001))).
  vm_compute. reflexivity.
Defined.

Lemma rendered_blank_stderr
    (w : World) (stdout stderr : bytes) (code : Z) :
  truthy (strip (decode w stderr)) = false ->
  rendered w stdout stderr code = rendered w stdout [] code.
Proof.
  intros H. unfold rendered, output_parts.
  destruct stderr; [reflexivity|]. rewrite H. reflexivity.
Qed.

(** X11. Standard error that is empty after decoding and trimming is left
    out: a run whose stderr holds only whitespace is rendered exactly like
    a run with no stderr at all. *)
Theorem blank_stderr_is_dropped
    (w : World) (stdout stderr : bytes) (code : Z) :
  truthy (strip (decode w stderr)) = false ->
  rendered w stdout stderr code = rendered w stdout [] code.
Proof. apply rendered_blank_stderr. Qed.

Lemma blank_stderr_is_dropped_witness :
  rendered Demo.bash_host (Demo.bytes_of "ok")
    (Demo.bytes_of "  " ++ [Byte.x0a]) 0
  = rendered Demo.bash_host (Demo.bytes_of "ok") [] 0.
Proof.
  apply (blank_stderr_is_dropped Demo.bash_host (Demo.bytes_of "ok")
           (Demo.bytes_of "  " ++ [Byte.x0a]) 0).
  vm_compute. reflexivity.
Defined.

(** X12. The layout of a rendering. With nothing on stdout, nothing (or
    only blanks) on stderr and exit code 0 it is ["(no output)"]. With
    output on stdout only and exit code 0 it is the decoded stdout, as it
    is. With the same streams and a non-zero code it is only the exit-code
    part, which begins with a line break. With all three parts it is the
    decoded stdout, a line break, ["STDERR:"], a line break, the decoded
    stderr, two line breaks and ["Exit code: <code>"]. *)
Theorem rendering_layout
    (w : World) (stdout stderr : bytes) (code : Z) :
  (stdout = [] ->
   stderr = [] \/ truthy (strip (decode w stderr)) = false ->
   (code = 0%Z -> rendered w stdout stderr code = lit "(no output)")
   /\ (code <> 0%Z ->
       rendered w stdout stderr code
       = [10%N] ++ lit "Exit code: " ++ of_Z code))
  /\
  (stdout <> [] ->
   stderr = [] \/ truthy (strip (decode w stderr)) = false ->
   code = 0%Z ->
   rendered w stdout stderr code = decode w stdout)
  /\
  (stdout <> [] -> stderr <> [] ->
   truthy (strip (decode w stderr)) = true ->
   code <> 0%Z ->
   rendered w stdout stderr code
   = decode w stdout ++ [10%N] ++ lit "STDERR:" ++ [10%N]
     ++ decode w stderr ++ [10%N] ++ [10%N] ++ lit "Exit code: "
     ++ of_Z code).
Proof.
  split; [|split].
  - intros -> Herr.
    assert (Hr : rendered w [] stderr code = rendered w [] [] code).
    { destruct Herr as [-> | H]; [reflexivity|].
      apply rendered_blank_stderr. exact H. }
    rewrite Hr. unfold rendered, output_parts. split.
    + intros ->. reflexivity.
    + intros Hc. apply Z.eqb_neq in Hc. rewrite Hc. reflexivity.
  - intros Hout Herr ->.
    assert (Hr : rendered w stdout stderr 0 = rendered w stdout [] 0).
    { destruct Herr as [-> | H]; [reflexivity|].
      apply rendered_blank_stderr. exact H. }
    rewrite Hr. unfold rendered, output_parts.
    destruct stdout; [congruence | reflexivity].
  - intros Hout Herr Ht Hc. unfold rendered, output_parts.
    destruct stdout; [congruence|]. destruct stderr; [congruence|].
    rewrite Ht. apply Z.eqb_neq in Hc. rewrite Hc. simpl.
    repeat rewrite <- app_assoc. reflexivity.
Qed.

(* ===================================================================== *)
(** * The history command *)
(* ===================================================================== *)

Lemma quoted_cons (c : N) (word value : str) :
  c <> 39%N ->
  quoted_word (39%N :: word) value ->
  quoted_word (39%N :: c :: word) (c :: value).
Proof.
  intros Hc H. inversion H as [| body rest v Hb Hr Hw Hv |]; subst.
  apply (quoted_single (c :: body) rest v); [|exact Hr].
  intros [Heq | Hin]; [congruence | exact (Hb Hin)].
Qed.

Lemma escaped_is_quoted (command : str) :
  quoted_word
    (39%N :: replace1 39 (lit "'" ++ [34%N] ++ lit "'" ++ [34%N] ++ lit "'")
               command ++ [39%N])
    command.
Proof.
  induction command as [|c command IH].
  - exact (quoted_single [] [] [] (fun F => F) quoted_nil).
  - unfold replace1 in *. cbn [flat_map].
    destruct (N.eqb_spec c 39) as [-> | Hc].
    + apply (quoted_single [] _ (39%N :: command) (fun F => F)).
      apply quoted_double. exact IH.
    + rewrite <- app_assoc. apply quoted_cons; [exact Hc | exact IH].
Qed.

(** X13. How the command is written into the history call. On a completed
    run under a shell whose path contains ["fish"], the trace holds the
    spawn of that shell with [-c] and ["history append <word>"], output
    discarded, where [<word>] consists of single-quoted runs without any
    single quote inside and of double-quoted single quotes, and these
    spell the command exactly as it was given. *)
Theorem history_word_spells_command
    (w : World) (self : ExecTool) (command : str) (wd : option str)
    (process : Process) (stdout stderr : bytes) :
  contains (lit "fish") (shell self) = true ->
  _guard_command w self command (effective_cwd w self wd) = Val None ->
  main_spawn w self command wd = Val process ->
  communicate process (timeout self) = Val (stdout, stderr) ->
  exists word,
    In (Spawn HistoryAppend (shell self)
          [lit "-c"; lit "history append " ++ word] None None
          DEVNULL DEVNULL)
       (trace (execute w self command wd))
    /\ quoted_word word command.
Proof.
  intros Hf Hg Hs Hc.
  rewrite (execute_completes _ _ _ _ _ _ _ Hg Hs Hc).
  unfold trace; cbn [fst]. unfold history_events. rewrite Hf.
  eexists. split; [|apply escaped_is_quoted].
  apply in_or_app. right. left. reflexivity.
Qed.

Lemma history_word_spells_command_witness :
  exists word,
    In (Spawn HistoryAppend (shell Demo.fish_tool)
          [lit "-c"; lit "history append " ++ word] None None
          DEVNULL DEVNULL)
       (trace (execute Demo.fish_host Demo.fish_tool (lit "ls") None))
    /\ quoted_word word (lit "ls").
Proof.
  apply (history_word_spells_command Demo.fish_host Demo.fish_tool (lit "ls")
           None (Demo.finishes (Demo.bytes_of "README.md" ++ [Byte.x0a]) [] 0)
           (Demo.bytes_of "README.md" ++ [Byte.x0a]) []);
    vm_compute; reflexivity.
Defined.

Example history_word_with_quote :
  history_events Demo.fish_tool (lit "echo 'hi'")
  = [Spawn HistoryAppend (lit "/usr/bin/fish")
       [lit "-c";
        lit "history append 'echo '" ++ [34%N] ++ lit "'" ++ [34%N]
        ++ lit "'hi'" ++ [34%N] ++ lit "'" ++ [34%N] ++ lit "''"]
       None None DEVNULL DEVNULL].
Proof. vm_compute. reflexivity. Qed.

(* ===================================================================== *)
(** * Confinement, end to end *)
(* ===================================================================== *)

(** Under restriction, past the deny list, the allow-list and the
    traversal test, and with a working directory that resolves, the
    guard's answer is that of the loop over the extracted paths. *)
Lemma guard_reaches_paths
    (w : World) (self : ExecTool) (command cwd : str) (cwd_path : Path) :
  restrict_to_workspace self = true ->
  matches_any w (deny_patterns self) (lowered w command) = false ->
  allowlisted w self command = true ->
  ~ has_traversal command ->
  resolve w cwd = Val cwd_path ->
  _guard_command w self command cwd
  = Val (path_loop w cwd_path (_extract_absolute_paths (strip command))).
Proof.
  intros Hr Hdeny Hal Hnt Hcwd.
  rewrite guard_stages, Hdeny, Hal, Hr. simpl.
  rewrite has_traversal_strip in Hnt. unfold has_traversal in Hnt.
  destruct (contains (lit "..\") (strip command)) eqn:E1.
  { exfalso. apply Hnt. right. apply contains_infix. exact E1. }
  destruct (contains (lit "../") (strip command)) eqn:E2.
  { exfalso. apply Hnt. left. apply contains_infix. exact E2. }
  simpl. rewrite Hcwd. reflexivity.
Qed.

(** X14. Under workspace restriction, a command (not deny- or
    allowlist-blocked, without traversal token) whose first slash stands at
    the start of the trimmed command or right after whitespace, a pipe or
    [>], is blocked with the path-outside message whenever the path that
    begins there resolves to an absolute path that is neither the working
    directory nor below it. No later part of the command can undo this. *)
Theorem first_outside_path_blocks
    (w : World) (self : ExecTool) (command cwd : str) (cwd_path p : Path)
    (a g b : str) :
  restrict_to_workspace self = true ->
  matches_any w (deny_patterns self) (lowered w command) = false ->
  allowlisted w self command = true ->
  ~ has_traversal command ->
  resolve w cwd = Val cwd_path ->
  strip command = a ++ g ++ b ->
  ~ In 47%N a -> leads a -> posix_literal g -> stops posix_body b ->
  resolve w g = Val p -> is_absolute p = true -> outside cwd_path p ->
  _guard_command w self command cwd
  = Val (Some (lit "Error: Command blocked by safety guard (path outside working dir)")).
Proof.
  intros Hr Hdeny Hal Hnt Hcwd Hshape Ha Hl Hg Hb Hres Habs Hout.
  rewrite (guard_reaches_paths _ _ _ _ _ Hr Hdeny Hal Hnt Hcwd).
  assert (Hin : In g (_extract_absolute_paths (strip command))).
  { rewrite Hshape. apply extract_first_posix; assumption. }
  destruct (path_loop_cases w cwd_path
              (_extract_absolute_paths (strip command)))
    as [[Hp _] | [_ Hno]]; [rewrite Hp; reflexivity|].
  exfalso. apply Hno. exists g, p.
  rewrite (strip_extracted _ _ Hin). auto.
Qed.

Lemma first_outside_path_blocks_witness :
  _guard_command Demo.bash_host Demo.tool_restricted
    (lit "  cat /etc/shadow /tmp/work/a ") (lit "/tmp/work")
  = Val (Some (lit "Error: Command blocked by safety guard (path outside working dir)")).
Proof.
  apply (first_outside_path_blocks Demo.bash_host Demo.tool_restricted
           (lit "  cat /etc/shadow /tmp/work/a ") (lit "/tmp/work")
           (mkPath (lit "/") [lit "tmp"; lit "work"])
           (mkPath (lit "/") [lit "etc"; lit "shadow"])
           (lit "cat ") (lit "/etc/shadow") (lit " /tmp/work/a")).
  - reflexivity.
  - vm_compute. reflexivity.
  - reflexivity.
  - intros [H | H]; apply contains_infix in H; vm_compute in H;
      discriminate.
  - vm_compute. reflexivity.
  - vm_compute. reflexivity.
  - apply notin_by_test. reflexivity.
  - right. exists (lit "cat"), 32%N. split; reflexivity.
  - exists (lit "etc/shadow").
    split; [reflexivity | split; [discriminate | reflexivity]].
  - reflexivity.
  - vm_compute. reflexivity.
  - reflexivity.
  - apply outside_test. vm_compute. reflexivity.
Defined.

Lemma longer_name_outside
    (root : str) (parent_names : list str) (name more : str) :
  more <> [] ->
  outside (mkPath root (parent_names ++ [name]))
          (mkPath root (parent_names ++ [name ++ more]))
  /\ outside (mkPath root (parent_names ++ [name]))
             (mkPath root parent_names).
Proof.
  intros Hmore.
  assert (Hlen : name ++ more <> name).
  { intros H. apply (f_equal (@List.length N)) in H.
    rewrite length_app in H. destruct more; [congruence | simpl in H; lia]. }
  split; split.
  - intros H. inversion H as [Hn]. apply app_inv_head in Hn.
    inversion Hn as [Hname]. exact (Hlen Hname).
  - intros [_ [x [rest Hd]]]. simpl in Hd.
    rewrite <- app_assoc in Hd. apply app_inv_head in Hd. discriminate.
  - intros H. inversion H as [Hn].
    apply (f_equal (@List.length str)) in Hn. rewrite length_app in Hn.
    simpl in Hn. lia.
  - intros [_ [x [rest Hd]]]. simpl in Hd.
    apply (f_equal (@List.length str)) in Hd.
    rewrite !length_app in Hd. simpl in Hd. lia.
Qed.

(** X15. The test of line 168 decides ancestry component by component,
    not on the text of the path: a resolved path whose last component
    merely continues the name of the working directory (such as
    [/tmp/work2] for [/tmp/work]) passes the test for being outside, and
    so does the parent of the working directory. *)
Theorem name_prefix_is_not_ancestry
    (root : str) (parent_names : list str) (name more : str) :
  more <> [] ->
  negb (path_in (mkPath root (parent_names ++ [name]))
          (parents (mkPath root (parent_names ++ [name ++ more]))))
  && negb (path_eqb (mkPath root (parent_names ++ [name ++ more]))
             (mkPath root (parent_names ++ [name])))
  = true
  /\ negb (path_in (mkPath root (parent_names ++ [name]))
             (parents (mkPath root parent_names)))
     && negb (path_eqb (mkPath root parent_names)
                (mkPath root (parent_names ++ [name])))
     = true.
Proof.
  intros Hmore.
  destruct (longer_name_outside root parent_names name more Hmore)
    as [H1 H2].
  split; apply outside_test; assumption.
Qed.

Lemma name_prefix_is_not_ancestry_witness :
  negb (path_in (mkPath (lit "/") ([lit "tmp"] ++ [lit "work"]))
          (parents (mkPath (lit "/") ([lit "tmp"] ++ [lit "work" ++ lit "2"]))))
  && negb (path_eqb (mkPath (lit "/") ([lit "tmp"] ++ [lit "work" ++ lit "2"]))
             (mkPath (lit "/") ([lit "tmp"] ++ [lit "work"])))
  = true
  /\ negb (path_in (mkPath (lit "/") ([lit "tmp"] ++ [lit "work"]))
             (parents (mkPath (lit "/") [lit "tmp"])))
     && negb (path_eqb (mkPath (lit "/") [lit "tmp"])
                (mkPath (lit "/") ([lit "tmp"] ++ [lit "work"])))
     = true.
Proof.
  apply (name_prefix_is_not_ancestry (lit "/") [lit "tmp"] (lit "work")
           (lit "2")).
  discriminate.
Defined.

Example sibling_directory_blocked :
  _guard_command Demo.bash_host Demo.tool_restricted
    (lit "cat /tmp/work2/secret") (lit "/tmp/work")
  = Val (Some msg_outside)
  /\ _guard_command Demo.bash_host Demo.tool_restricted
       (lit "ls /tmp") (lit "/tmp/work")
     = Val (Some msg_outside).
Proof. split; vm_compute; reflexivity. Qed.
